(** * Monte Carlo integration (task_2.py) and the production plan (task_1.py):
    a shallow embedding and its properties

    The development follows [src/task_2.py]; the constraints of
    [src/task_1.py] come after it.  Python's [float] is IEEE 754
    binary64, which is the kernel's primitive [float]; Python's [int] is [Z].
    The module [random] keeps one hidden generator for the whole process (a
    Mersenne Twister, CPython's [_random]); its state is threaded explicitly
    through every function that touches it.  Exceptions are values of
    [Py.result]; an exception leaves the generator as it was when raised.
    Python's [**] on floats calls the C library's [pow], whose last place is
    the machine's: [pow] is a parameter of the functions that use [**], and
    what a statement asks of it is written as a hypothesis. *)

From Stdlib Require Import ZArith List Lia Bool String Uint63 PArray Floats.
Import ListNotations.

Set Warnings "-abstract-large-number,-inexact-float".

(* ================================================================== *)
(** ** Python values: exceptions and the built-ins the module uses     *)
(* ================================================================== *)

Module Py.

Inductive exn : Type :=
| ValueError (msg : string)
| OverflowError
| ZeroDivisionError
| OtherError (name : string).

Inductive result (A : Type) : Type :=
| Ok (a : A)
| Raise (e : exn).
Arguments Ok {A} a.
Arguments Raise {A} e.

Definition rbind {A B} (r : result A) (k : A -> result B) : result B :=
  match r with
  | Ok a => k a
  | Raise e => Raise e
  end.

Local Open Scope float_scope.

(** [max(a, b)] on two floats: the first argument is kept unless the second
    compares strictly greater (so a NaN first argument is returned). *)
Definition max (a b : float) : float := if a <? b then b else a.

(** [DOUBLE_IS_ODD_INTEGER] on an exponent that is a positive integer. *)
Definition odd_exponent (n : positive) : bool :=
  match n with
  | xO _ => false
  | _ => true
  end.

(** The correctly rounded power [x^n] on specification floats. *)
Definition SFpow (x : spec_float) (n : positive) : spec_float :=
  match x with
  | S754_nan => S754_nan
  | S754_zero s => S754_zero (s && odd_exponent n)
  | S754_infinity s => S754_infinity (s && odd_exponent n)
  | S754_finite s m e =>
      binary_round_aux prec emax (s && odd_exponent n)
        (Zpos (Pos.pow m n)) (Zpos n * e) loc_Exact
  end.

(** The correctly rounded power (IEEE 754 [pow]) as a float function.  A C
    library's [pow] need not be this one; it serves as an instance in
    examples. *)
Definition rounded_pow (x : float) (n : positive) : float :=
  SF2Prim (SFpow (Prim2SF x) n).

Section CLibrary.

(** The C library's [pow(x, n)] for an exponent that is a positive integer.
    Its values are those of the library of the machine: the source does not
    fix them, and they need not be correctly rounded. *)
Variable libm_pow : float -> positive -> float.

(** [iv ** n] for a float [iv] and a positive integer literal [n]
    (CPython's [float_pow]): the special cases are sorted out first, then
    [pow] is called and a range error becomes [OverflowError]. *)
Definition float_pow (iv : float) (n : positive) : result float :=
  let odd := odd_exponent n in
  if is_nan iv then Ok iv
  else if is_infinity iv then Ok (if odd then iv else abs iv)
  else if iv =? 0 then Ok (if odd then iv else 0)
  else
    let negate_result := (iv <? 0) && odd in
    let iv := if iv <? 0 then - iv else iv in
    if iv =? 1 then Ok (if negate_result then -1 else 1)
    else
      let ix := libm_pow iv n in
      if is_infinity ix then Raise OverflowError
      else Ok (if negate_result then - ix else ix).

End CLibrary.

(** [a / b] on two ints (true division): the correctly rounded quotient;
    [ZeroDivisionError] for a zero divisor, [OverflowError] when the
    quotient is too large for a float. *)
Definition int_truediv (a b : Z) : result float :=
  match a, b with
  | _, Z0 => Raise ZeroDivisionError
  | Z0, Zpos _ => Ok 0
  | Z0, Zneg _ => Ok (-0)
  | (Zpos p | Zneg p), (Zpos q | Zneg q) =>
      let negate := xorb (a <? 0)%Z (b <? 0)%Z in
      let x := SF2Prim (SFdiv prec emax (S754_finite false p 0)
                                        (S754_finite false q 0)) in
      if is_infinity x then Raise OverflowError
      else Ok (if negate then - x else x)
  end.

End Py.

Import Py.

(* ================================================================== *)
(** ** CPython's [_random]: the Mersenne Twister behind [import random] *)
(* ================================================================== *)

Module MT.

Local Open Scope uint63_scope.

(** A C [uint32_t] is kept in a 63-bit integer; [u32] is the wrap-around. *)
Definition u32 (x : int) : int := x land 0xFFFFFFFF.

Definition N : int := 624.
Definition M : int := 397.
Definition MATRIX_A : int := 0x9908b0df.
Definition UPPER_MASK : int := 0x80000000.
Definition LOWER_MASK : int := 0x7fffffff.

(** [RandomObject]: [uint32_t state[N]; int index]. *)
Record RandomObject : Type := { state : array int; index : int }.

Fixpoint init_genrand_loop (fuel : nat) (mti : int) (mt : array int)
  : array int :=
  match fuel with
  | O => mt
  | S fuel' =>
      let p := mt.[mti - 1] in
      init_genrand_loop fuel' (mti + 1)
        mt.[mti <- u32 (1812433253 * (p lxor (p >> 30)) + mti)]
  end.

Definition init_genrand (s : int) : RandomObject :=
  let mt := (make N 0).[0 <- u32 s] in
  {| state := init_genrand_loop 623 1 mt; index := N |}.

(** The two mixing loops of [init_by_array]; [wrap] is their shared tail
    [if (i >= N) { mt[0] = mt[N-1]; i = 1; }]. *)
Definition wrap (i : int) (mt : array int) : int * array int :=
  if N <=? i then (1, mt.[0 <- mt.[N - 1]]) else (i, mt).

Fixpoint key_loop (k : nat) (init_key : list int) (rest : list int)
  (i j : int) (mt : array int) : int * array int :=
  match k with
  | O => (i, mt)
  | S k' =>
      let '(kj, rest') :=
        match rest with
        | [] => (0, [])
        | w :: r => (w, r)
        end in
      let p := mt.[i - 1] in
      let mt := mt.[i <- u32 ((mt.[i] lxor ((p lxor (p >> 30)) * 1664525))
                              + kj + j)] in
      let '(i, mt) := wrap (i + 1) mt in
      let '(j, rest') :=
        match rest' with
        | [] => (0, init_key)
        | _ => (j + 1, rest')
        end in
      key_loop k' init_key rest' i j mt
  end.

Fixpoint mix_loop (k : nat) (i : int) (mt : array int) : array int :=
  match k with
  | O => mt
  | S k' =>
      let p := mt.[i - 1] in
      let mt := mt.[i <- u32 ((mt.[i] lxor ((p lxor (p >> 30)) * 1566083941))
                              - i)] in
      let '(i, mt) := wrap (i + 1) mt in
      mix_loop k' i mt
  end.

Definition init_by_array (init_key : list int) : RandomObject :=
  let mt := state (init_genrand 19650218) in
  let '(i, mt) :=
    key_loop (Nat.max 624 (List.length init_key)) init_key init_key 1 0 mt in
  let mt := mix_loop 623 i mt in
  {| state := mt.[0 <- 0x80000000]; index := N |}.

(** One word of the state regeneration:
    [y = (mt[kk]&UPPER_MASK)|(mt[nxt]&LOWER_MASK);
     mt[kk] = mt[far] ^ (y >> 1) ^ mag01[y & 1]]. *)
Definition twist_word (mt : array int) (kk nxt far : int) : array int :=
  let y := (mt.[kk] land UPPER_MASK) lor (mt.[nxt] land LOWER_MASK) in
  mt.[kk <- mt.[far] lxor (y >> 1)
            lxor (if (y land 1) =? 0 then 0 else MATRIX_A)].

Fixpoint twist_loop (fuel : nat) (kk : int) (mt : array int) : array int :=
  match fuel with
  | O => mt
  | S fuel' =>
      let mt :=
        if kk <? N - M then twist_word mt kk (kk + 1) (kk + M)
        else if kk <? N - 1 then twist_word mt kk (kk + 1) (kk + M - N)
        else twist_word mt kk 0 (M - 1) in
      twist_loop fuel' (kk + 1) mt
  end.

Definition genrand_uint32 (self : RandomObject) : int * RandomObject :=
  let self :=
    if N <=? index self
    then {| state := twist_loop 624 0 (state self); index := 0 |}
    else self in
  let y := (state self).[index self] in
  let y := y lxor (y >> 11) in
  let y := y lxor ((y << 7) land 0x9d2c5680) in
  let y := y lxor ((y << 15) land 0xefc60000) in
  let y := y lxor (y >> 18) in
  (y, {| state := state self; index := index self + 1 |}).

(** The key of [random.seed(n)] for an int [n]: the 32-bit words of [abs(n)],
    least significant first, and one zero word for [n = 0]. *)
Fixpoint key_words (fuel : nat) (n : Z) : list int :=
  match fuel with
  | O => []
  | S fuel' =>
      of_Z (n mod 4294967296) ::
      (if (n / 4294967296 =? 0)%Z then []
       else key_words fuel' (n / 4294967296))
  end.

Definition key_of_int (n : Z) : list int :=
  let a := Z.abs n in
  key_words (S (Z.to_nat (Z.log2 a))) a.

End MT.

Import MT.

(* ================================================================== *)
(** ** The module [random]: functions of the process-wide generator    *)
(* ================================================================== *)

(** A computation that may read and update the hidden generator of the module
    [random] and may raise.  The generator it leaves is returned in both
    cases: raising does not undo earlier draws. *)
Definition M (A : Type) : Type := RandomObject -> result A * RandomObject.

Definition ret {A} (a : A) : M A := fun g => (Ok a, g).

Definition raise {A} (e : exn) : M A := fun g => (Raise e, g).

Definition bind {A B} (c : M A) (k : A -> M B) : M B :=
  fun g =>
    match c g with
    | (Ok a, g') => k a g'
    | (Raise e, g') => (Raise e, g')
    end.

(** A call that cannot touch the generator. *)
Definition call {A} (r : result A) : M A := fun g => (r, g).

Declare Scope py_scope.
Delimit Scope py_scope with py.
Notation "x <- c ;; k" := (bind c (fun x => k))
  (at level 61, c at next level, right associativity) : py_scope.
Notation "c ;;; k" := (bind c (fun _ => k))
  (at level 61, right associativity) : py_scope.

Module Random.

Local Open Scope float_scope.

(** [random.seed(a)] for an int [a]: the generator is re-initialised from
    the key of [a]; nothing of its previous state survives. *)
Definition seed_state (a : Z) : RandomObject := init_by_array (key_of_int a).

Definition seed (a : Z) : M unit := fun _ => (Ok tt, seed_state a).

(** [random.random()]: two 32-bit words make one 53-bit fraction,
    [(a*67108864.0+b)*(1.0/9007199254740992.0)] with [a = w1>>5],
    [b = w2>>6]. *)
Definition random_step (g : RandomObject) : float * RandomObject :=
  let '(w1, g) := genrand_uint32 g in
  let '(w2, g) := genrand_uint32 g in
  let a := (w1 >> 5)%uint63 in
  let b := (w2 >> 6)%uint63 in
  ((of_uint63 a * 67108864 + of_uint63 b) * (1 / 9007199254740992), g).

Definition random : M float :=
  fun g => let '(u, g') := random_step g in (Ok u, g').

(** [random.uniform(a, b)] is [a + (b - a) * self.random()]. *)
Definition uniform (a b : float) : M float :=
  (u <- random ;; ret (a + (b - a) * u))%py.

End Random.

(* ================================================================== *)
(** ** task_2.py                                                       *)
(* ================================================================== *)

Local Open Scope float_scope.
Local Open Scope py_scope.

(** A Python callable of type [Callable[[float], float]]: it may raise, and it
    does not use the module [random]. *)
Definition callable : Type := float -> result float.

(** A callable that returns [f x] and never raises. *)
Definition total (f : float -> float) : callable := fun x => Ok (f x).

Section Task2.

(** The C library's [pow], which [**] calls (see [Py.float_pow]). *)
Variable libm_pow : float -> positive -> float.

(** [integrand_function(x_value)]: [x_value ** 2]. *)
Definition integrand_function (x_value : float) : result float :=
  float_pow libm_pow x_value 2.

(** The body of [for _ in range(samples_count)], iterated [n] times with the
    running value of [points_under_curve]. *)
Fixpoint sampling_loop (function : callable) (lower_bound upper_bound : float)
  (max_function_value : float) (n : nat) (points_under_curve : Z) : M Z :=
  match n with
  | O => ret points_under_curve
  | S n' =>
      x_random <- Random.uniform lower_bound upper_bound ;;
      y_random <- Random.uniform 0 max_function_value ;;
      fx <- call (function x_random) ;;
      sampling_loop function lower_bound upper_bound max_function_value n'
        (if y_random <=? fx then (points_under_curve + 1)%Z
         else points_under_curve)
  end.

Definition estimate_integral_monte_carlo (function : callable)
  (lower_bound upper_bound : float) (samples_count : Z) (random_seed : Z)
  : M float :=
  if (samples_count <=? 0)%Z then
    raise (ValueError "samples_count має бути додатним цілим числом.")
  else if upper_bound <=? lower_bound then
    raise (ValueError "upper_bound має бути більшим за lower_bound.")
  else
    Random.seed random_seed ;;;
    f_lower <- call (function lower_bound) ;;
    f_upper <- call (function upper_bound) ;;
    let max_function_value := Py.max f_lower f_upper in
    let rectangle_area := (upper_bound - lower_bound) * max_function_value in
    points_under_curve <-
      sampling_loop function lower_bound upper_bound max_function_value
        (Z.to_nat samples_count) 0%Z ;;
    under_curve_ratio <- call (int_truediv points_under_curve samples_count) ;;
    let integral_estimate := under_curve_ratio * rectangle_area in
    ret integral_estimate.

(** [analytic_integral_x_squared]:
    [(upper_bound ** 3 - lower_bound ** 3) / 3.0]. *)
Definition analytic_integral_x_squared (lower_bound upper_bound : float)
  : result float :=
  rbind (float_pow libm_pow upper_bound 3) (fun u3 =>
  rbind (float_pow libm_pow lower_bound 3) (fun l3 =>
  Ok ((u3 - l3) / 3))).

(** [scipy.integrate.quad] as the module would see it: a black box that
    returns the pair [(result, abs_error_estimate)] or raises. *)
Definition quad_function : Type :=
  callable -> float -> float -> result (float * float).

(** What [import scipy.integrate as spi] finds: [None] when the import raises
    [ImportError], the integrator otherwise. *)
Definition scipy_integrate : Type := option quad_function.

(** [try_quad_integration]: Python's [None] is [None], the tuple is [Some]. *)
Definition try_quad_integration (spi : scipy_integrate) (function : callable)
  (lower_bound upper_bound : float) : result (option (float * float)) :=
  match spi with
  | None => Ok None
  | Some quad =>
      rbind (quad function lower_bound upper_bound) (fun '(result_value, abs_error_estimate) =>
      Ok (Some (result_value, abs_error_estimate)))
  end.

(** What [main] prints, line by line; an f-string keeps its fields apart. *)
Inductive printed : Type :=
| Header
| MonteCarloLine (samples_count : Z) (monte_carlo_result : float)
| AnalyticLine (analytic_result : float)
| DifferenceLine (difference : float)
| ScipyMissingLine
| QuadHeader
| QuadLine (quad_result quad_error_estimate : float)
| QuadDifferenceLine (difference : float).

(** [main()]: the lines printed and how the call ended. *)
Definition main (spi : scipy_integrate) : M (list printed) :=
  let lower_bound := 0 in
  let upper_bound := 2 in
  let samples_count := 200000%Z in
  monte_carlo_result <-
    estimate_integral_monte_carlo integrand_function lower_bound upper_bound
      samples_count 42 ;;
  analytic_result <- call (analytic_integral_x_squared lower_bound upper_bound) ;;
  let out :=
    [ Header;
      MonteCarloLine samples_count monte_carlo_result;
      AnalyticLine analytic_result;
      DifferenceLine (abs (monte_carlo_result - analytic_result)) ] in
  quad_data <-
    call (try_quad_integration spi integrand_function lower_bound upper_bound) ;;
  match quad_data with
  | None => ret (out ++ [ScipyMissingLine])
  | Some (quad_result, quad_error_estimate) =>
      ret (out ++
           [ QuadHeader;
             QuadLine quad_result quad_error_estimate;
             QuadDifferenceLine (abs (monte_carlo_result - quad_result)) ])
  end.

End Task2.

(* ================================================================== *)
(** ** The draws of the generator and the samples of one call          *)
(* ================================================================== *)

(** The generator after one call of [random.random()]. *)
Definition next_state (g : RandomObject) : RandomObject :=
  snd (Random.random_step g).

(** The value of the [k]-th call of [random.random()] (from 0) when the
    generator starts as [g]. *)
Definition draw (g : RandomObject) (k : nat) : float :=
  fst (Random.random_step (Nat.iter k next_state g)).

(** The [i]-th point of the loop when the generator starts as [g]: draw [2i]
    gives [x_random], draw [2i + 1] gives [y_random]. *)
Definition sample (lower_bound upper_bound max_function_value : float)
  (g : RandomObject) (i : nat) : float * float :=
  (lower_bound + (upper_bound - lower_bound) * draw g (2 * i),
   0 + (max_function_value - 0) * draw g (2 * i + 1)).

Definition samples (lower_bound upper_bound max_function_value : float)
  (g : RandomObject) (n : nat) : list (float * float) :=
  map (sample lower_bound upper_bound max_function_value g) (seq 0 n).

(** The test of line 73, [y_random <= function(x_random)], on a point. *)
Definition under_curve (f : float -> float) (p : float * float) : bool :=
  snd p <=? f (fst p).

Definition count_under (f : float -> float) (l : list (float * float)) : Z :=
  Z.of_nat (List.length (filter (under_curve f) l)).

(** Some state of the hidden generator before a call (the reference seed of
    the Mersenne Twister). *)
Definition some_generator : RandomObject := MT.init_genrand 5489.


(** The abscissas of the points of a call: they do not depend on the
    integrand. *)
Definition abscissas (lower_bound upper_bound : float) (g : RandomObject)
  (n : nat) : list float :=
  map (fun i => lower_bound + (upper_bound - lower_bound) * draw g (2 * i))
    (seq 0 n).

(** A test on the points of a call, with the generator threaded as the loop
    threads it (see [all_points_spec]). *)
Fixpoint all_points (test : float * float -> bool)
  (lower_bound upper_bound max_function_value : float) (g : RandomObject)
  (n : nat) : bool :=
  match n with
  | O => true
  | S n' =>
      let '(u1, g1) := Random.random_step g in
      let '(u2, g2) := Random.random_step g1 in
      test (lower_bound + (upper_bound - lower_bound) * u1,
            0 + (max_function_value - 0) * u2)
      && all_points test lower_bound upper_bound max_function_value g2 n'
  end.

(** *** What is asked of the C library's [pow] *)

(** Whether [v] is the float [p] or one of its two neighbours. *)
Definition within_one_ulp (v p : float) : bool :=
  Leibniz.eqb v (next_down p) || Leibniz.eqb v p || Leibniz.eqb v (next_up p).

(** Accuracy of [pow] on the run of [main]: [2 ** 2] and [2 ** 3] are exact,
    and at each abscissa of the run the square is the rounded product or a
    neighbour of it (an error below one unit in the last place). *)
Definition accurate_on_documented_run (pow : float -> positive -> float)
  : bool :=
  Leibniz.eqb (pow 2 2%positive) 4 && Leibniz.eqb (pow 2 3%positive) 8
  && forallb (fun x => within_one_ulp (pow x 2%positive) (x * x))
       (abscissas 0 2 (Random.seed_state 42) (Z.to_nat 200000)).

(** On a point [(x, y)]: [x] is not negative, and the test of line 73 comes
    out as with [x * x] whichever of the three floats around [x * x] the
    library returns for the square. *)
Definition same_test_nearby (p : float * float) : bool :=
  let '(x, y) := p in
  negb (x <? 0)
  && forallb (fun c => match float_pow (fun _ _ => c) x 2 with
                       | Ok v => Bool.eqb (y <=? v) (y <=? x * x)
                       | Raise _ => false
                       end)
       [next_down (x * x); x * x; next_up (x * x)].

(** [a * 2^ea <= b * 2^eb]. *)
Definition scaled_le (a ea b eb : Z) : bool :=
  let k := Z.min ea eb in
  (a * 2 ^ (ea - k) <=? b * 2 ^ (eb - k))%Z.

(** Whether the exact power [|x|^n] is at most the largest float,
    [(2^53 - 1) * 2^971]. *)
Definition power_in_range (x : float) (n : positive) : bool :=
  match Prim2SF x with
  | S754_zero _ => true
  | S754_finite _ m e =>
      scaled_le (Zpos m ^ Zpos n) (Zpos n * e) 9007199254740991 971
  | _ => false
  end.

(** Whether the exact power [|x|^n] of a finite [x] is [2^1024] or more. *)
Definition power_out_of_range (x : float) (n : positive) : bool :=
  match Prim2SF x with
  | S754_finite _ m e => scaled_le 1 1024 (Zpos m ^ Zpos n) (Zpos n * e)
  | _ => false
  end.

(** A [pow] that is right about the range at [(x, n)]: its value is finite
    when the exact power is at most the largest float, and infinite when the
    exact power is [2^1024] or more. *)
Definition right_about_range (pow : float -> positive -> float) (x : float)
  (n : positive) : bool :=
  implb (power_in_range x n) (negb (is_infinity (pow x n)))
  && implb (power_out_of_range x n) (is_infinity (pow x n)).

(** A callable for an example: it returns at the endpoints of [[0, 2]] and
    raises elsewhere. *)
Definition endpoints_only (x : float) : result float :=
  if (x =? 0) || (x =? 2) then Ok 1 else Raise (OtherError "interior").

(** A callable for an example: [x * x], with an exception at [1.5]. *)
Definition square_but_one (x : float) : result float :=
  if x =? 1.5 then Raise (OtherError "1.5") else Ok (x * x).

(* ================================================================== *)
(** ** task_1.py: the production plan                                  *)
(* ================================================================== *)

Module Plan.

Local Open Scope Z_scope.

(** [AvailableResources], a frozen dataclass of four ints. *)
Record AvailableResources : Type := {
  water_units : Z;
  sugar_units : Z;
  lemon_juice_units : Z;
  fruit_puree_units : Z
}.

(** [AvailableResources()]: the defaults of the dataclass. *)
Definition default_resources : AvailableResources :=
  {| water_units := 100; sugar_units := 50;
     lemon_juice_units := 30; fruit_puree_units := 40 |}.

(** The constraints that [solve_production_plan] gives the solver for the two
    integer variables, both with [lowBound=0]: water, sugar, lemon juice and
    fruit puree. *)
Definition within_limits (resources : AvailableResources)
  (lemonade_units fruit_juice_units : Z) : bool :=
  (0 <=? lemonade_units) && (0 <=? fruit_juice_units)
  && (2 * lemonade_units + 1 * fruit_juice_units <=? water_units resources)
  && (1 * lemonade_units <=? sugar_units resources)
  && (1 * lemonade_units <=? lemon_juice_units resources)
  && (2 * fruit_juice_units <=? fruit_puree_units resources).

(** The objective that the model maximises. *)
Definition total_units (lemonade_units fruit_juice_units : Z) : Z :=
  lemonade_units + fruit_juice_units.

(** A plan in closed form: as much juice as puree and water allow, then as
    much lemonade as sugar, lemon juice and the remaining water allow. *)
Definition juice_first_plan (resources : AvailableResources) : Z * Z :=
  let fruit_juice_units :=
    Z.min (fruit_puree_units resources / 2) (water_units resources) in
  let lemonade_units :=
    Z.min (Z.min (sugar_units resources) (lemon_juice_units resources))
          ((water_units resources - fruit_juice_units) / 2) in
  (lemonade_units, fruit_juice_units).

End Plan.

Import Plan.

(* ================================================================== *)
(** ** Binary64 rounding: the facts the bounds rest on                 *)
(* ================================================================== *)

Module Binary64.

Local Open Scope Z_scope.

(** [fexp] at binary64: the exponent of the last place. *)
Definition fexp64 (x : Z) : Z := Z.max (x - 53) (-1074).

(** The value with mantissa [m] and location [l] is at most the integer [B]
    (all at one exponent). *)
Definition le_bound (m : Z) (l : location) (B : Z) : Prop :=
  m < B \/ (m = B /\ l = loc_Exact).

Definition canonical64 (m : positive) (e : Z) : Prop :=
  fexp64 (Zpos (digits2_pos m) + e) = e.

Definition SFzero : spec_float := S754_zero false.
Definition SFunit : spec_float := S754_finite false 4503599627370496 (-52).

Lemma digits2_pos_bounds (p : positive) :
2 ^ (Zpos (digits2_pos p) - 1) <= Zpos p < 2 ^ Zpos (digits2_pos p).
Proof.
induction p as [p IH | p IH | ]; simpl digits2_pos;
  rewrite ?Pos2Z.inj_succ.
- replace (Z.succ (Zpos (digits2_pos p)) - 1)
    with (Z.succ (Zpos (digits2_pos p) - 1)) by lia.
  rewrite !Z.pow_succ_r by lia. lia.
- replace (Z.succ (Zpos (digits2_pos p)) - 1)
    with (Z.succ (Zpos (digits2_pos p) - 1)) by lia.
  rewrite !Z.pow_succ_r by lia. lia.
- simpl. lia.
Qed.

Lemma Zdigits2_nonneg m : 0 <= m -> 0 <= Zdigits2 m.
Proof. destruct m; simpl; lia. Qed.

Lemma Zdigits2_bounds m :
0 < m -> 2 ^ (Zdigits2 m - 1) <= m < 2 ^ Zdigits2 m.
Proof.
destruct m as [ | p | p ]; try lia. intros _. apply digits2_pos_bounds.
Qed.

Lemma pow2_lt_inv a b : 0 <= b -> 2 ^ a < 2 ^ b -> a < b.
Proof.
intros Hb H. destruct (Z_lt_le_dec a b) as [ | Hle ]; [ assumption | ].
apply (Z.pow_le_mono_r 2) in Hle; lia.
Qed.

(** An upper bound on a value bounds its number of digits. *)
Lemma Zdigits2_le_of_lt m k : 0 <= m -> 0 <= k -> m < 2 ^ k -> Zdigits2 m <= k.
Proof.
intros Hm Hk Hlt.
destruct (Z.eq_dec m 0) as [-> | Hne]; [ simpl; lia | ].
destruct (Zdigits2_bounds m) as [Hlo _]; [ lia | ].
assert (Zdigits2 m - 1 < k) by (apply pow2_lt_inv; lia). lia.
Qed.

Lemma Zdigits2_gt_of_le m k : 0 <= k -> 2 ^ k <= m -> k < Zdigits2 m.
Proof.
intros Hk Hle.
assert (0 < m) by (pose proof (Z.pow_pos_nonneg 2 k); lia).
destruct (Zdigits2_bounds m) as [_ Hhi]; [ lia | ].
apply pow2_lt_inv; [ apply Zdigits2_nonneg | ]; lia.
Qed.

Lemma fexp_eq x : fexp prec emax x = fexp64 x.
Proof. reflexivity. Qed.

(** *** Right shifts *)

Lemma iter_pos_nat {A} (f : A -> A) (p : positive) (x : A) :
iter_pos f p x = Nat.iter (Pos.to_nat p) f x.
Proof.
revert x. induction p as [p IH | p IH | ]; intro x; simpl iter_pos.
- rewrite !IH, Pos2Nat.inj_xI.
  replace (S (2 * Pos.to_nat p))%nat
    with (Pos.to_nat p + (Pos.to_nat p + 1))%nat by lia.
  rewrite !Nat.iter_add. reflexivity.
- rewrite !IH, Pos2Nat.inj_xO.
  replace (2 * Pos.to_nat p)%nat with (Pos.to_nat p + Pos.to_nat p)%nat by lia.
  rewrite Nat.iter_add. reflexivity.
- reflexivity.
Qed.

Lemma shr_1_m mrs : 0 <= shr_m mrs -> shr_m (shr_1 mrs) = shr_m mrs / 2.
Proof.
destruct mrs as [m r s]. simpl shr_m. intro Hm.
rewrite <- Z.div2_div.
destruct m as [ | [p | p | ] | p ]; try reflexivity; lia.
Qed.

Lemma shr_1_exact A :
0 <= A -> shr_1 (Build_shr_record (2 * A) false false) = Build_shr_record A false false.
Proof. destruct A as [ | p | p ]; intros; try reflexivity; lia. Qed.

Lemma iter_shr_1_m (k : nat) mrs :
0 <= shr_m mrs ->
shr_m (Nat.iter k shr_1 mrs) = shr_m mrs / 2 ^ Z.of_nat k.
Proof.
revert mrs. induction k as [ | k IH ]; intros mrs Hm.
- simpl. now rewrite Z.div_1_r.
- rewrite Nat.iter_succ_r, IH; rewrite shr_1_m by assumption.
  + rewrite Nat2Z.inj_succ, Z.pow_succ_r by lia.
    rewrite Z.div_div by (pose proof (Z.pow_pos_nonneg 2 (Z.of_nat k)); lia).
    reflexivity.
  + apply Z.div_pos; lia.
Qed.

Lemma iter_shr_1_exact (k : nat) A :
0 <= A ->
Nat.iter k shr_1 (Build_shr_record (A * 2 ^ Z.of_nat k) false false)
= Build_shr_record A false false.
Proof.
revert A. induction k as [ | k IH ]; intros A HA.
- simpl. now rewrite Z.mul_1_r.
- rewrite Nat.iter_succ_r, Nat2Z.inj_succ, Z.pow_succ_r by lia.
  replace (A * (2 * 2 ^ Z.of_nat k)) with (2 * (A * 2 ^ Z.of_nat k)) by ring.
  rewrite shr_1_exact by (pose proof (Z.pow_pos_nonneg 2 (Z.of_nat k)); nia).
  now apply IH.
Qed.

Lemma loc_of_shr_record_of_loc m l :
loc_of_shr_record (shr_record_of_loc m l) = l.
Proof. destruct l as [ | [ | | ] ]; reflexivity. Qed.

Lemma shr_m_of_loc m l : shr_m (shr_record_of_loc m l) = m.
Proof. destruct l as [ | [ | | ] ]; reflexivity. Qed.

(** [shr] by [n > 0] divides the mantissa by [2^n]; an exact multiple of
  [2^n] stays exact. *)
Lemma shr_pos_spec m l e n :
0 <= m -> 0 < n ->
exists mrs, shr (shr_record_of_loc m l) e n = (mrs, e + n)
  /\ shr_m mrs = m / 2 ^ n
  /\ (l = loc_Exact -> m mod 2 ^ n = 0 -> loc_of_shr_record mrs = loc_Exact).
Proof.
intros Hm Hn. destruct n as [ | p | p ]; try lia.
unfold shr. eexists; split; [ reflexivity | ].
rewrite iter_pos_nat.
assert (Hp : Z.of_nat (Pos.to_nat p) = Zpos p) by apply positive_nat_Z.
split.
- rewrite iter_shr_1_m, shr_m_of_loc, Hp by (rewrite shr_m_of_loc; lia).
  reflexivity.
- intros -> Hmod. simpl shr_record_of_loc.
  apply Z.div_exact in Hmod; [ | pose proof (Z.pow_pos_nonneg 2 (Zpos p)); lia ].
  rewrite Hmod at 1. rewrite Z.mul_comm, <- Hp, iter_shr_1_exact.
  + reflexivity.
  + apply Z.div_pos; [ lia | apply Z.pow_pos_nonneg; lia ].
Qed.

(** *** Rounding stays below a representable bound *)

Lemma fexp64_mono x y : x <= y -> fexp64 x <= fexp64 y.
Proof. unfold fexp64. lia. Qed.

Lemma le_bound_le m l B : le_bound m l B -> m <= B.
Proof. unfold le_bound. lia. Qed.

Lemma fexp_digits_le m e l mb eb :
0 <= m -> e <= eb -> canonical64 mb eb ->
le_bound m l (Zpos mb * 2 ^ (eb - e)) ->
fexp64 (Zdigits2 m + e) <= eb.
Proof.
intros Hm He Hc Hle. apply le_bound_le in Hle.
unfold canonical64 in Hc.
apply Z.le_trans with (fexp64 (Zpos (digits2_pos mb) + eb)); [ | lia ].
apply fexp64_mono.
destruct (digits2_pos_bounds mb) as [_ Hhi].
assert (Hpow : 0 < 2 ^ (eb - e)) by (apply Z.pow_pos_nonneg; lia).
assert (m < 2 ^ (Zpos (digits2_pos mb) + (eb - e))).
{ rewrite Z.pow_add_r by lia. nia. }
assert (Zdigits2 m <= Zpos (digits2_pos mb) + (eb - e))
  by (apply Zdigits2_le_of_lt; lia).
lia.
Qed.

Lemma shr_fexp_le m e l mb eb :
0 <= m -> e <= eb -> canonical64 mb eb ->
le_bound m l (Zpos mb * 2 ^ (eb - e)) ->
exists mrs e',
  shr_fexp prec emax m e l = (mrs, e')
  /\ e <= e' <= eb
  /\ 0 <= shr_m mrs
  /\ le_bound (shr_m mrs) (loc_of_shr_record mrs) (Zpos mb * 2 ^ (eb - e')).
Proof.
intros Hm He Hc Hle.
pose proof (fexp_digits_le m e l mb eb Hm He Hc Hle) as Hf.
unfold shr_fexp. rewrite fexp_eq.
destruct (Z_lt_le_dec 0 (fexp64 (Zdigits2 m + e) - e)) as [Hn | Hn].
- destruct (shr_pos_spec m l e _ Hm Hn) as (mrs & Hs & Hmrs & Hex).
  exists mrs, (e + (fexp64 (Zdigits2 m + e) - e)).
  split; [ exact Hs | ].
  set (n := fexp64 (Zdigits2 m + e) - e) in *.
  assert (Hpn : 0 < 2 ^ n) by (apply Z.pow_pos_nonneg; lia).
  assert (HB : Zpos mb * 2 ^ (eb - e) = Zpos mb * 2 ^ (eb - (e + n)) * 2 ^ n).
  { rewrite <- Z.mul_assoc, <- Z.pow_add_r by lia. do 2 f_equal. lia. }
  split; [ lia | ]. rewrite Hmrs. split.
  + apply Z.div_pos; lia.
  + rewrite HB in Hle. destruct Hle as [Hlt | [Heq Hl]].
    * left. apply Z.div_lt_upper_bound; [ lia | ]. lia.
    * right. split.
      -- rewrite Heq. apply Z.div_mul. lia.
      -- apply Hex; [ exact Hl | ]. rewrite Heq. apply Z.mod_mul. lia.
- exists (shr_record_of_loc m l), e.
  split.
  { unfold shr. destruct (fexp64 (Zdigits2 m + e) - e); try reflexivity. lia. }
  rewrite shr_m_of_loc, loc_of_shr_record_of_loc. repeat split; try lia.
  exact Hle.
Qed.

Lemma round_nearest_even_le m l B :
le_bound m l B ->
m <= round_nearest_even m l /\ le_bound (round_nearest_even m l) loc_Exact B.
Proof.
intro H.
assert (Hr : m <= round_nearest_even m l <= B).
{ unfold le_bound in H. unfold round_nearest_even.
  destruct l as [ | [ | | ] ]; try destruct (Z.even m);
    destruct H as [H | [H H']]; try discriminate; lia. }
split; [ lia | ]. unfold le_bound.
destruct (Z_lt_le_dec (round_nearest_even m l) B);
  [ left; assumption | right; split; [ lia | reflexivity ] ].
Qed.

Lemma SFleb_zero_finite m e :
SFleb (S754_zero false) (S754_finite false m e) = true.
Proof. reflexivity. Qed.

(** The rounding of a non-negative value that is at most the canonical float
  [(mb, eb)] is a float between zero and [(mb, eb)]. *)
Lemma binary_round_aux_le m e l mb eb :
0 <= m -> e <= eb -> canonical64 mb eb -> eb <= emax - prec ->
le_bound m l (Zpos mb * 2 ^ (eb - e)) ->
SFleb (S754_zero false) (binary_round_aux prec emax false m e l) = true
/\ SFleb (binary_round_aux prec emax false m e l) (S754_finite false mb eb)
   = true.
Proof.
intros Hm He Hc Hb Hle. unfold binary_round_aux.
destruct (shr_fexp_le m e l mb eb Hm He Hc Hle)
  as (mrs1 & e1 & -> & He1 & Hm1 & Hle1).
apply round_nearest_even_le in Hle1. destruct Hle1 as [Hup Hle1].
destruct (shr_fexp_le (round_nearest_even (shr_m mrs1) (loc_of_shr_record mrs1))
            e1 loc_Exact mb eb)
  as (mrs2 & e2 & -> & He2 & Hm2 & Hle2); try lia; try assumption.
apply le_bound_le in Hle2.
destruct (shr_m mrs2) as [ | p | p ]; try lia.
- split; reflexivity.
- assert (Hfin : (e2 <=? emax - prec) = true) by (apply Z.leb_le; lia).
  rewrite Hfin. split; [ reflexivity | ].
  unfold SFleb, SFcompare.
  destruct (Z.compare_spec e2 eb) as [Heq | Hlt | Hgt]; try reflexivity; try lia.
  subst e2. rewrite Z.sub_diag, Z.mul_1_r in Hle2.
  assert (Hp : (p <= mb)%positive) by lia.
  unfold Pos.le in Hp. fold (Pos.compare p mb).
  destruct (Pos.compare p mb); try reflexivity. now elim Hp.
Qed.

(** *** What validity and comparisons say at binary64 *)

Lemma valid_finite_inv s m e :
valid_binary (S754_finite s m e) = true ->
canonical64 m e /\ e <= emax - prec.
Proof.
unfold valid_binary, SpecFloat.valid_binary, bounded, canonical_mantissa.
intro H. apply andb_true_iff in H. destruct H as [H1 H2].
apply Z.eqb_eq in H1. apply Z.leb_le in H2. split; assumption.
Qed.

Lemma canonical64_lt m e : canonical64 m e -> Zpos m < 2 ^ 53.
Proof.
unfold canonical64, fexp64. intro H.
destruct (digits2_pos_bounds m) as [_ Hhi].
assert (Zpos (digits2_pos m) <= 53) by lia.
apply Z.lt_le_trans with (1 := Hhi). apply Z.pow_le_mono_r; lia.
Qed.

Lemma SFleb_zero_inv X :
SFleb SFzero X = true ->
(exists s, X = S754_zero s) \/ X = S754_infinity false
\/ exists m e, X = S754_finite false m e.
Proof.
destruct X as [s | [ | ] | | [ | ] m e]; try discriminate; eauto.
Qed.

Lemma compare_cont_Eq_le p q :
Pos.compare_cont Eq p q <> Gt -> Zpos p <= Zpos q.
Proof. intro H. change (Zpos p <= Zpos q) with ((Zpos p ?= Zpos q) <> Gt). exact H. Qed.

Lemma SFleb_unit_inv m e :
canonical64 m e ->
SFleb (S754_finite false m e) SFunit = true ->
e <= -52 /\ Zpos m <= 2 ^ (- e).
Proof.
intros Hc. apply canonical64_lt in Hc.
unfold SFleb, SFunit, SFcompare.
destruct (Z.compare_spec e (-52)) as [He | Hlt | Hgt]; try discriminate.
- intro H. split; [ lia | ]. rewrite He.
  apply (compare_cont_Eq_le m 4503599627370496).
  intro E. rewrite E in H. discriminate.
- intros _. split; [ lia | ].
  apply Z.le_trans with (2 ^ 53); [ lia | apply Z.pow_le_mono_r; lia ].
Qed.

(** The product of a float in [[0, 1]] and a finite non-negative float [A]
  lies between zero and [A]. *)
Lemma SFmul_unit_bound R A :
valid_binary R = true -> valid_binary A = true ->
SFleb SFzero R = true -> SFleb R SFunit = true ->
SFleb SFzero A = true -> SFltb A (S754_infinity false) = true ->
SFleb SFzero (SFmul prec emax R A) = true
/\ SFleb (SFmul prec emax R A) A = true.
Proof.
intros VR VA HR0 HR1 HA0 HAinf.
destruct (SFleb_zero_inv R HR0) as [[sr ->] | [-> | (mr & er & ->)]];
  [ | discriminate | ];
  (destruct (SFleb_zero_inv A HA0) as [[sa ->] | [-> | (ma & ea & ->)]];
   [ | discriminate | ]);
  try (destruct sr); try (destruct sa); try (split; reflexivity).
destruct (valid_finite_inv _ _ _ VR) as [CR _].
destruct (valid_finite_inv _ _ _ VA) as [CA BA].
destruct (SFleb_unit_inv mr er CR HR1) as [Her Hmr].
unfold SFmul. simpl xorb.
apply binary_round_aux_le; try assumption; try lia.
replace (ea - (er + ea)) with (- er) by lia.
unfold le_bound. rewrite Pos2Z.inj_mul.
destruct (Z.eq_dec (Zpos mr) (2 ^ (- er))) as [Heq | Hne].
- right. split; [ rewrite Heq; ring | reflexivity ].
- left. nia.
Qed.

(** *** Rounding produces valid floats *)

Lemma shr_fexp_first m e l :
0 <= m -> e <= fexp64 (Zdigits2 m + e) ->
exists mrs e1,
  shr_fexp prec emax m e l = (mrs, e1)
  /\ 0 <= shr_m mrs < 2 ^ 53 /\ -1074 <= e1
  /\ (-1074 < e1 -> 2 ^ 52 <= shr_m mrs).
Proof.
intros Hm He. unfold shr_fexp. rewrite fexp_eq.
set (d := Zdigits2 m) in *.
assert (Hd : 0 <= d) by (apply Zdigits2_nonneg; assumption).
assert (Hmd : m < 2 ^ d).
{ destruct (Z.eq_dec m 0) as [-> | Hne].
  - apply Z.pow_pos_nonneg; lia.
  - apply Zdigits2_bounds. lia. }
destruct (Z_lt_le_dec 0 (fexp64 (d + e) - e)) as [Hn | Hn].
- destruct (shr_pos_spec m l e _ Hm Hn) as (mrs & Hs & Hmrs & _).
  exists mrs, (e + (fexp64 (d + e) - e)). split; [ exact Hs | ].
  set (n := fexp64 (d + e) - e) in *.
  assert (Hpn : 0 < 2 ^ n) by (apply Z.pow_pos_nonneg; lia).
  rewrite Hmrs. split; [ split | split ].
  + apply Z.div_pos; lia.
  + apply Z.div_lt_upper_bound; [ lia | ].
    rewrite <- Z.pow_add_r by lia.
    apply Z.lt_le_trans with (1 := Hmd).
    apply Z.pow_le_mono_r; [ lia | ]. unfold n, fexp64. lia.
  + unfold n, fexp64. lia.
  + intro He1.
    assert (Hn53 : n = d - 53) by (unfold n, fexp64 in *; lia).
    assert (Hm0 : 0 < m).
    { destruct (Z.eq_dec m 0) as [E | E]; [ | lia ].
      subst m. unfold d in Hn53. simpl in Hn53. lia. }
    destruct (Zdigits2_bounds m Hm0) as [Hlo _]. fold d in Hlo.
    apply Z.div_le_lower_bound; [ lia | ].
    rewrite <- Z.pow_add_r by lia.
    replace (n + 52) with (d - 1) by lia. exact Hlo.
- assert (Heq : fexp64 (d + e) = e) by lia.
  exists (shr_record_of_loc m l), e. split.
  { unfold shr. destruct (fexp64 (d + e) - e); try reflexivity. lia. }
  rewrite shr_m_of_loc. unfold fexp64 in Heq.
  split; [ split; [ lia | ] | split; [ lia | ] ].
  + apply Z.lt_le_trans with (1 := Hmd). apply Z.pow_le_mono_r; lia.
  + intro He1. assert (d = 53) by lia.
    assert (Hm0 : 0 < m).
    { destruct (Z.eq_dec m 0) as [E | E]; [ | lia ].
      subst m. unfold d in *. simpl in *. lia. }
    destruct (Zdigits2_bounds m Hm0) as [Hlo _]. fold d in Hlo.
    replace (d - 1) with 52 in Hlo by lia. exact Hlo.
Qed.

Lemma shr_fexp_second m e :
0 <= m <= 2 ^ 53 -> -1074 <= e -> (-1074 < e -> 2 ^ 52 <= m) ->
exists mrs e2,
  shr_fexp prec emax m e loc_Exact = (mrs, e2)
  /\ (shr_m mrs = 0 \/ exists p, shr_m mrs = Zpos p /\ canonical64 p e2).
Proof.
intros Hm He Hnorm. unfold shr_fexp. rewrite fexp_eq.
destruct (Z.eq_dec m 0) as [-> | Hm0].
{ exists (shr_record_of_loc 0 loc_Exact), e. split; [ | left; reflexivity ].
  unfold shr, fexp64. simpl Zdigits2.
  destruct (Z.max (0 + e - 53) (-1074) - e) eqn:E; try reflexivity. lia. }
destruct (Z.eq_dec m (2 ^ 53)) as [-> | Hm53].
{ assert (Hd : Zdigits2 (2 ^ 53) = 54) by reflexivity.
  rewrite Hd.
  assert (Hn : fexp64 (54 + e) - e = 1) by (unfold fexp64; lia).
  rewrite Hn.
  exists (Build_shr_record (2 ^ 52) false false), (e + 1).
  split; [ reflexivity | right ].
  exists 4503599627370496%positive. split; [ reflexivity | ].
  unfold canonical64, fexp64. simpl digits2_pos. lia. }
assert (Hd : Zdigits2 m <= 53) by (apply Zdigits2_le_of_lt; lia).
assert (Hd' : -1074 < e -> Zdigits2 m = 53).
{ intro H. specialize (Hnorm H).
  assert (52 < Zdigits2 m) by (apply Zdigits2_gt_of_le; lia). lia. }
assert (Hn : fexp64 (Zdigits2 m + e) = e) by (unfold fexp64; lia).
exists (shr_record_of_loc m loc_Exact), e. split.
{ unfold shr. rewrite Hn, Z.sub_diag. reflexivity. }
right. simpl shr_m. destruct m as [ | p | p ]; try lia.
exists p. split; [ reflexivity | exact Hn ].
Qed.

Lemma binary_round_aux_valid s m e l :
0 <= m -> e <= fexp64 (Zdigits2 m + e) ->
valid_binary (binary_round_aux prec emax s m e l) = true.
Proof.
intros Hm He. unfold binary_round_aux.
destruct (shr_fexp_first m e l Hm He) as (mrs1 & e1 & -> & Hm1 & He1 & Hn1).
set (mr := round_nearest_even (shr_m mrs1) (loc_of_shr_record mrs1)).
assert (Hmr : shr_m mrs1 <= mr <= shr_m mrs1 + 1).
{ unfold mr, round_nearest_even.
  destruct (loc_of_shr_record mrs1) as [ | [ | | ] ];
    try destruct (Z.even (shr_m mrs1)); lia. }
assert (Hmr1 : 0 <= mr <= 2 ^ 53) by lia.
assert (Hmr2 : -1074 < e1 -> 2 ^ 52 <= mr)
  by (intro H; specialize (Hn1 H); lia).
destruct (shr_fexp_second mr e1 Hmr1 He1 Hmr2) as (mrs2 & e2 & -> & H2).
destruct H2 as [-> | (p & -> & Hc)]; [ reflexivity | ].
destruct (e2 <=? emax - prec) eqn:E; [ | reflexivity ].
unfold valid_binary, SpecFloat.valid_binary, bounded, canonical_mantissa.
rewrite E, andb_true_r. apply Z.eqb_eq. exact Hc.
Qed.

(** *** The quotient of two positive integers, the smaller over the larger *)

Lemma SFdiv_core_unit (c n : positive) :
(c <= n)%positive ->
exists q e' l,
  SFdiv_core_binary prec emax (Zpos c) 0 (Zpos n) 0 = (q, e', l)
  /\ e' <= -53 /\ 0 <= q
  /\ e' <= fexp64 (Zdigits2 q + e')
  /\ le_bound q l (2 ^ (- e')).
Proof.
intro Hcn. unfold SFdiv_core_binary. rewrite fexp_eq.
set (d1 := Zdigits2 (Zpos c)). set (d2 := Zdigits2 (Zpos n)).
assert (Hd1 : 0 < d1) by (unfold d1; simpl; lia).
destruct (Zdigits2_bounds (Zpos c)) as [Hc1 Hc2]; [ lia | ].
destruct (Zdigits2_bounds (Zpos n)) as [Hn1 Hn2]; [ lia | ].
fold d1 in Hc1, Hc2. fold d2 in Hn1, Hn2.
assert (Hd : d1 <= d2).
{ unfold d1. apply Zdigits2_le_of_lt; try lia. unfold d2. simpl. lia. }
replace (d1 + 0 - (d2 + 0)) with (d1 - d2) by lia.
replace (0 - 0) with 0 by lia.
assert (He : Z.min (fexp64 (d1 - d2)) 0 = fexp64 (d1 - d2))
  by (unfold fexp64; lia).
rewrite He. set (e' := fexp64 (d1 - d2)).
assert (He' : e' <= -53) by (unfold e', fexp64; lia).
assert (He'' : d1 - d2 - 53 <= e') by (unfold e', fexp64; lia).
destruct (0 - e') as [ | s | s ] eqn:Es; try lia.
rewrite Z.shiftl_mul_pow2 by lia.
assert (Hs : Zpos s = - e') by lia. rewrite Hs.
pose proof (Z_div_mod (Zpos c * 2 ^ (- e')) (Zpos n) eq_refl) as Hdm.
destruct (Z.div_eucl (Zpos c * 2 ^ (- e')) (Zpos n)) as [q r].
destruct Hdm as [Hq Hr].
exists q, e', (new_location (Zpos n) r).
assert (Hp : 0 < 2 ^ (- e')) by (apply Z.pow_pos_nonneg; lia).
split; [ reflexivity | ]. split; [ assumption | ].
assert (Hq0 : 0 <= q) by nia.
split; [ assumption | ]. split.
- destruct (Z.eq_dec e' (-1074)) as [Hmin | Hmin];
    [ unfold fexp64; lia | ].
  assert (He3 : e' = d1 - d2 - 53) by (unfold e', fexp64 in *; lia).
  assert (Hk : d1 - d2 - e' - 1 < Zdigits2 q).
  { apply Zdigits2_gt_of_le; [ lia | ].
    assert (Hpk : 2 ^ (d1 - 1) * 2 ^ (- e')
                  = 2 ^ d2 * 2 ^ (d1 - d2 - e' - 1)).
    { rewrite <- !Z.pow_add_r by lia. f_equal. lia. }
    set (P := 2 ^ (d1 - d2 - e' - 1)) in *.
    assert (0 < P) by (apply Z.pow_pos_nonneg; lia).
    assert (0 < 2 ^ d2) by (apply Z.pow_pos_nonneg; lia).
    assert (2 ^ d2 * P <= Zpos c * 2 ^ (- e')) by nia.
    nia. }
  unfold e' at 1. apply fexp64_mono. lia.
- unfold le_bound.
  destruct (Pos.eq_dec c n) as [-> | Hne].
  + right.
    assert (q = 2 ^ (- e')) by nia.
    assert (r = 0) by nia. subst r. split; [ assumption | ].
    unfold new_location, new_location_even, new_location_odd.
    destruct (Z.even (Zpos n)); reflexivity.
  + left. assert (Zpos c < Zpos n) by lia. nia.
Qed.

Lemma SFdiv_unit (c n : positive) :
(c <= n)%positive ->
let X := SFdiv prec emax (S754_finite false c 0) (S754_finite false n 0) in
valid_binary X = true /\ SFleb SFzero X = true /\ SFleb X SFunit = true.
Proof.
intros Hcn X. unfold X, SFdiv.
destruct (SFdiv_core_unit c n Hcn) as (q & e' & l & -> & He & Hq & Hf & Hle).
simpl xorb. split.
- apply binary_round_aux_valid; assumption.
- apply binary_round_aux_le; try assumption; try lia.
  + reflexivity.
  + unfold emax, prec. lia.
  + replace (Zpos 4503599627370496) with (2 ^ 52) by reflexivity.
    rewrite <- Z.pow_add_r by lia.
    replace (52 + (-52 - e')) with (- e') by lia. exact Hle.
Qed.

(** *** Comparisons *)

Lemma compare_cont_Eq_antisym p q :
Pos.compare_cont Eq q p = CompOpp (Pos.compare_cont Eq p q).
Proof. exact (Pos.compare_antisym p q). Qed.

Lemma SFltb_not_ge X Y : SFltb X Y = true -> SFleb Y X = false.
Proof.
unfold SFltb, SFleb.
destruct X as [sx | sx | | sx mx ex], Y as [sy | sy | | sy my ey];
  simpl; try discriminate;
  try (destruct sx; try discriminate; try reflexivity; fail);
  try (destruct sy; try discriminate; try reflexivity; fail);
  try (destruct sx, sy; try discriminate; reflexivity).
destruct sx, sy; try discriminate; try reflexivity;
  rewrite (Z.compare_antisym ex ey);
  destruct (ex ?= ey); simpl; try discriminate; try reflexivity;
  rewrite (compare_cont_Eq_antisym mx my);
  destruct (Pos.compare_cont Eq mx my); simpl; try discriminate; reflexivity.
Qed.

Lemma SFeqb_le X Y : SFeqb X Y = true -> SFleb X Y = true.
Proof.
unfold SFeqb, SFleb. destruct (SFcompare X Y) as [[ | | ] | ];
  try discriminate; reflexivity.
Qed.

Local Open Scope float_scope.

Lemma Prim2SF_zero : Prim2SF 0 = SFzero.
Proof. reflexivity. Qed.

Lemma Prim2SF_one : Prim2SF 1 = SFunit.
Proof. reflexivity. Qed.

Lemma Prim2SF_infinity : Prim2SF infinity = S754_infinity false.
Proof. reflexivity. Qed.

Lemma ltb_not_ge (a b : float) : (a <? b) = true -> (b <=? a) = false.
Proof. rewrite ltb_spec, leb_spec. apply SFltb_not_ge. Qed.

Lemma eqb_le (a b : float) : (a =? b) = true -> (a <=? b) = true.
Proof. rewrite eqb_spec, leb_spec. apply SFeqb_le. Qed.

(** A float in [[0, 1]] times a finite non-negative float [a] is a float in
  [[0, a]]. *)
Lemma mul_unit_bound (r a : float) :
(0 <=? r) = true -> (r <=? 1) = true ->
(0 <=? a) = true -> (a <? infinity) = true ->
(0 <=? r * a) = true /\ (r * a <=? a) = true.
Proof.
rewrite !leb_spec, ltb_spec, mul_spec.
rewrite Prim2SF_zero, Prim2SF_one, Prim2SF_infinity.
intros H1 H2 H3 H4.
apply SFmul_unit_bound; auto using Prim2SF_valid.
Qed.

Lemma is_infinity_unit X :
valid_binary X = true -> SFleb SFzero X = true -> SFleb X SFunit = true ->
is_infinity (SF2Prim X) = false.
Proof.
intros V H0 H1. unfold is_infinity.
rewrite eqb_spec, abs_spec, Prim2SF_SF2Prim, Prim2SF_infinity by assumption.
destruct (SFleb_zero_inv X H0) as [[s ->] | [-> | (m & e & ->)]];
  try reflexivity. discriminate.
Qed.

(** The quotient of two ints [0 <= c <= n], [0 < n], is a float in [[0, 1]]:
  the division raises nothing. *)
Lemma int_truediv_unit (c n : Z) :
(0 <= c <= n)%Z -> (0 < n)%Z ->
exists r, int_truediv c n = Ok r
          /\ (0 <=? r) = true /\ (r <=? 1) = true.
Proof.
intros Hc Hn. destruct n as [ | q | q ]; try lia.
destruct c as [ | p | p ]; try lia.
- exists 0. repeat split.
- assert (Hpq : (p <= q)%positive) by lia.
  destruct (SFdiv_unit p q Hpq) as (V & H0 & H1).
  unfold int_truediv.
  change (xorb (Zpos p <? 0)%Z (Zpos q <? 0)%Z) with false.
  cbv iota beta zeta.
  rewrite (is_infinity_unit _ V H0 H1).
  eexists. split; [ reflexivity | ].
  rewrite !leb_spec, Prim2SF_SF2Prim, Prim2SF_zero, Prim2SF_one by assumption.
  split; assumption.
Qed.

Lemma SFpow_2 X : SFpow X 2 = SFmul prec emax X X.
Proof.
destruct X as [s | s | | s m e]; simpl SFpow; unfold SFmul;
  rewrite ?andb_false_r, ?xorb_nilpotent; try reflexivity.
f_equal.
- unfold Pos.pow. simpl. now rewrite Pos.mul_1_r.
- destruct e; simpl; try reflexivity; now rewrite Pos.add_diag.
Qed.

Lemma rounded_pow_2 (x : float) : rounded_pow x 2 = x * x.
Proof.
unfold rounded_pow. rewrite SFpow_2.
change (SFmul prec emax) with SF64mul.
rewrite <- mul_spec. apply SF2Prim_Prim2SF.
Qed.

End Binary64.

Import Binary64.

(* ================================================================== *)
(** ** Running the monad                                               *)
(* ================================================================== *)

Lemma bind_ok {A B} (c : M A) (k : A -> M B) g a g' :
  c g = (Ok a, g') -> bind c k g = k a g'.
Proof. intro H. unfold bind. now rewrite H. Qed.

Lemma bind_raise {A B} (c : M A) (k : A -> M B) g e g' :
  c g = (Raise e, g') -> bind c k g = (Raise e, g').
Proof. intro H. unfold bind. now rewrite H. Qed.

(** One call of [random.uniform] takes exactly one draw. *)
Lemma uniform_run a b g :
  Random.uniform a b g = (Ok (a + (b - a) * draw g 0), next_state g).
Proof.
  unfold Random.uniform, Random.random, bind, ret, draw, next_state.
  simpl Nat.iter. destruct (Random.random_step g) as [u g']. reflexivity.
Qed.

Lemma draw_shift g k : draw (next_state (next_state g)) k = draw g (k + 2).
Proof. unfold draw. now rewrite Nat.iter_add. Qed.

Lemma sample_shift lo hi h g i :
  sample lo hi h (next_state (next_state g)) i = sample lo hi h g (S i).
Proof.
  unfold sample. rewrite !draw_shift.
  replace (2 * i + 2)%nat with (2 * S i)%nat by lia.
  replace (2 * i + 1 + 2)%nat with (2 * S i + 1)%nat by lia.
  reflexivity.
Qed.

Lemma samples_succ lo hi h g n :
  samples lo hi h g (S n)
  = sample lo hi h g 0 :: samples lo hi h (next_state (next_state g)) n.
Proof.
  unfold samples. simpl seq. simpl map. f_equal.
  rewrite <- seq_shift, map_map. apply map_ext. intro i.
  symmetry. apply sample_shift.
Qed.

Lemma samples_length lo hi h g n : List.length (samples lo hi h g n) = n.
Proof. unfold samples. now rewrite length_map, length_seq. Qed.

Lemma count_under_cons f p l :
  count_under f (p :: l)
  = ((if under_curve f p then 1 else 0) + count_under f l)%Z.
Proof.
  unfold count_under. simpl filter. destruct (under_curve f p); simpl List.length; lia.
Qed.

Lemma count_under_bounds f l :
  (0 <= count_under f l <= Z.of_nat (List.length l))%Z.
Proof.
  unfold count_under. pose proof (filter_length_le (under_curve f) l). lia.
Qed.

(** The loop on a callable that never raises: the counter grows by the number
    of points under the curve, and the generator advances by two draws per
    point. *)
Lemma sampling_loop_total f lo hi h n c g :
  sampling_loop (total f) lo hi h n c g
  = (Ok (c + count_under f (samples lo hi h g n))%Z,
     Nat.iter (2 * n) next_state g).
Proof.
  revert c g. induction n as [ | n IH ]; intros c g.
  - simpl. unfold ret, count_under. simpl. now rewrite Z.add_0_r.
  - cbn [sampling_loop].
    rewrite (bind_ok _ _ _ _ _ (uniform_run lo hi g)).
    rewrite (bind_ok _ _ _ _ _ (uniform_run 0 h (next_state g))).
    unfold call at 1, total at 1. unfold bind at 1.
    rewrite IH, samples_succ, count_under_cons.
    replace (2 * S n)%nat with (2 * n + 2)%nat by lia.
    rewrite Nat.iter_add. simpl (Nat.iter 2 _ _).
    unfold under_curve, sample. cbn [fst snd Nat.mul Nat.add].
    change (draw (next_state g) 0) with (draw g 1).
    destruct (0 + (h - 0) * draw g 1 <=? f (lo + (hi - lo) * draw g 0));
      do 2 f_equal; lia.
Qed.

(** A valid call on a callable that never raises, step by step. *)
Lemma estimate_valid f lo hi N S g :
  (0 < N)%Z -> (hi <=? lo) = false ->
  let h := Py.max (f lo) (f hi) in
  let count := count_under f (samples lo hi h (Random.seed_state S) (Z.to_nat N)) in
  exists ratio,
    int_truediv count N = Ok ratio
    /\ (0 <=? ratio) = true /\ (ratio <=? 1) = true
    /\ estimate_integral_monte_carlo (total f) lo hi N S g
       = (Ok (ratio * ((hi - lo) * h)),
          Nat.iter (2 * Z.to_nat N) next_state (Random.seed_state S)).
Proof.
  intros HN Hb h count.
  assert (Hc : (0 <= count <= N)%Z).
  { unfold count. pose proof (count_under_bounds f
      (samples lo hi h (Random.seed_state S) (Z.to_nat N))) as H.
    rewrite samples_length in H. lia. }
  destruct (int_truediv_unit count N Hc HN) as (ratio & Hr & H0 & H1).
  exists ratio. repeat split; try assumption.
  unfold estimate_integral_monte_carlo.
  assert (HN' : (N <=? 0)%Z = false) by (apply Z.leb_gt; lia).
  rewrite HN', Hb.
  unfold bind at 1. unfold Random.seed.
  unfold bind at 1. unfold call at 1, total at 1.
  unfold bind at 1. unfold call at 1, total at 1.
  fold h.
  rewrite (bind_ok _ _ _ _ _ (sampling_loop_total f lo hi h (Z.to_nat N) 0 _)).
  rewrite Z.add_0_l. fold count.
  unfold bind, call. rewrite Hr. reflexivity.
Qed.

(** The loop stops at the first point where the integrand raises: the
    exception comes out, and the generator keeps the draws made so far. *)
Lemma sampling_loop_first_failure (function : callable) lo hi h e i :
  forall n c g,
  (i < n)%nat ->
  (forall j, (j < i)%nat ->
     exists v, function (fst (sample lo hi h g j)) = Ok v) ->
  function (fst (sample lo hi h g i)) = Raise e ->
  sampling_loop function lo hi h n c g
  = (Raise e, Nat.iter (2 * (i + 1)) next_state g).
Proof.
  induction i as [ | i IH ]; intros n c g Hi Hok Hfail;
    (destruct n as [ | n ]; [ lia | ]); cbn [sampling_loop];
    rewrite (bind_ok _ _ _ _ _ (uniform_run lo hi g));
    rewrite (bind_ok _ _ _ _ _ (uniform_run 0 h (next_state g))).
  - change (fst (sample lo hi h g 0)) with (lo + (hi - lo) * draw g 0) in Hfail.
    unfold bind, call. rewrite Hfail. reflexivity.
  - destruct (Hok 0%nat) as [v Hv]; [ lia | ].
    change (fst (sample lo hi h g 0)) with (lo + (hi - lo) * draw g 0) in Hv.
    unfold bind at 1. unfold call at 1. rewrite Hv.
    rewrite (IH n _ (next_state (next_state g))).
    + replace (2 * (S i + 1))%nat with (2 * (i + 1) + 2)%nat by lia.
      now rewrite Nat.iter_add.
    + lia.
    + intros j Hj. rewrite sample_shift. apply Hok. lia.
    + rewrite sample_shift. exact Hfail.
Qed.


Lemma sampling_loop_agree (f f' : callable) lo hi h :
  forall n c g,
  (forall i, (i < n)%nat ->
     f (lo + (hi - lo) * draw g (2 * i)) = f' (lo + (hi - lo) * draw g (2 * i))) ->
  sampling_loop f lo hi h n c g = sampling_loop f' lo hi h n c g.
Proof.
  induction n as [ | n IH ]; intros c g Hf; [ reflexivity | ].
  cbn [sampling_loop].
  rewrite !(bind_ok _ _ _ _ _ (uniform_run lo hi g)).
  rewrite !(bind_ok _ _ _ _ _ (uniform_run 0 h (next_state g))).
  unfold bind, call.
  pose proof (Hf 0%nat ltac:(lia)) as H0.
  change (2 * 0)%nat with 0%nat in H0. rewrite H0.
  destruct (f' (lo + (hi - lo) * draw g 0)) as [fx | e]; [ | reflexivity ].
  apply IH. intros i Hi. rewrite !draw_shift.
  replace (2 * i + 2)%nat with (2 * S i)%nat by lia. apply Hf. lia.
Qed.




(** [all_points] is the test on every point of the call. *)
Lemma all_points_spec test lo hi h n :
  forall g, all_points test lo hi h g n = forallb test (samples lo hi h g n).
Proof.
  induction n as [ | n IH ]; intro g; [ reflexivity | ].
  rewrite samples_succ. cbn [all_points forallb].
  rewrite <- IH.
  change (sample lo hi h g 0)
    with (lo + (hi - lo) * fst (Random.random_step g),
          0 + (h - 0)
              * fst (Random.random_step (snd (Random.random_step g)))).
  change (next_state (next_state g))
    with (snd (Random.random_step (snd (Random.random_step g)))).
  destruct (Random.random_step g) as [u1 g1]. cbn [fst snd].
  destruct (Random.random_step g1) as [u2 g2]. reflexivity.
Qed.

Lemma all_points_nth test lo hi h g n i :
  all_points test lo hi h g n = true -> (i < n)%nat ->
  test (sample lo hi h g i) = true.
Proof.
  rewrite all_points_spec. intros H Hi.
  rewrite forallb_forall in H. apply H.
  unfold samples. apply in_map, in_seq. lia.
Qed.

Lemma abscissas_nth (test : float -> bool) lo hi g n i :
  forallb test (abscissas lo hi g n) = true -> (i < n)%nat ->
  test (lo + (hi - lo) * draw g (2 * i)) = true.
Proof.
  intros H Hi. rewrite forallb_forall in H. apply H.
  unfold abscissas.
  apply (in_map (fun i => lo + (hi - lo) * draw g (2 * i))), in_seq. lia.
Qed.

(** The loop reads the integrand through the tests [y <= f(x)] only. *)
Lemma sampling_loop_same_tests (f : callable) (f' : float -> float) lo hi h :
  forall n c g,
  (forall i, (i < n)%nat ->
     exists v,
       f (fst (sample lo hi h g i)) = Ok v
       /\ (snd (sample lo hi h g i) <=? v)
          = (snd (sample lo hi h g i) <=? f' (fst (sample lo hi h g i)))) ->
  sampling_loop f lo hi h n c g = sampling_loop (total f') lo hi h n c g.
Proof.
  induction n as [ | n IH ]; intros c g Hf; [ reflexivity | ].
  cbn [sampling_loop].
  rewrite !(bind_ok _ _ _ _ _ (uniform_run lo hi g)).
  rewrite !(bind_ok _ _ _ _ _ (uniform_run 0 h (next_state g))).
  unfold bind, call. unfold total at 1.
  destruct (Hf 0%nat ltac:(lia)) as (v & Hv & Ht).
  unfold sample in Hv, Ht. cbn [fst snd Nat.mul Nat.add] in Hv, Ht.
  change (draw (next_state g) 0) with (draw g 1).
  rewrite Hv, Ht.
  apply IH. intros i Hi. rewrite sample_shift. apply Hf. lia.
Qed.

Lemma estimate_same_tests (f : callable) (f' : float -> float) lo hi N S g :
  f lo = Ok (f' lo) -> f hi = Ok (f' hi) ->
  (forall i, (i < Z.to_nat N)%nat ->
     let p := sample lo hi (Py.max (f' lo) (f' hi)) (Random.seed_state S) i in
     exists v, f (fst p) = Ok v /\ (snd p <=? v) = (snd p <=? f' (fst p))) ->
  estimate_integral_monte_carlo f lo hi N S g
  = estimate_integral_monte_carlo (total f') lo hi N S g.
Proof.
  intros Hlo Hhi Hs. unfold estimate_integral_monte_carlo.
  destruct (N <=? 0)%Z; [ reflexivity | ].
  destruct (hi <=? lo); [ reflexivity | ].
  unfold bind, Random.seed, call. rewrite Hlo, Hhi.
  change (total f' lo) with (Ok (f' lo)).
  change (total f' hi) with (Ok (f' hi)).
  cbv beta iota zeta.
  rewrite (sampling_loop_same_tests f f') by exact Hs. reflexivity.
Qed.

(* ================================================================== *)
(** ** Properties of [estimate_integral_monte_carlo]                   *)
(* ================================================================== *)

(** C1. For a call with [samples_count > 0] and [upper_bound > lower_bound]
    on an integrand that never raises, the quotient of the number of points
    with [y <= f(x)] by [samples_count] is a float, and the returned estimate
    is that quotient times [(upper_bound - lower_bound) * height], where
    [height = max(f(lower_bound), f(upper_bound))] comes from the two endpoint
    values only. *)
Theorem estimate_is_ratio_times_area f lo hi N S g :
  (0 < N)%Z -> (lo <? hi) = true ->
  let height := Py.max (f lo) (f hi) in
  let width := hi - lo in
  let count :=
    count_under f (samples lo hi height (Random.seed_state S) (Z.to_nat N)) in
  exists ratio,
    int_truediv count N = Ok ratio
    /\ fst (estimate_integral_monte_carlo (total f) lo hi N S g)
       = Ok (ratio * (width * height)).
Proof.
  intros HN Hlt height width count.
  destruct (estimate_valid f lo hi N S g HN (ltb_not_ge _ _ Hlt))
    as (ratio & Hr & _ & _ & Hrun).
  exists ratio. split; [ exact Hr | ]. now rewrite Hrun.
Qed.

Lemma estimate_is_ratio_times_area_witness :
  exists ratio,
    int_truediv
      (count_under (fun x => x * x)
         (samples 0 2 (Py.max (0 * 0) (2 * 2)) (Random.seed_state 42)
            (Z.to_nat 3))) 3 = Ok ratio
    /\ fst (estimate_integral_monte_carlo (total (fun x => x * x)) 0 2 3 42
              some_generator)
       = Ok (ratio * ((2 - 0) * Py.max (0 * 0) (2 * 2))).
Proof.
  apply (estimate_is_ratio_times_area (fun x => x * x) 0 2 3 42 some_generator);
    [ lia | reflexivity ].
Defined.

(** C2. The call raises [ValueError] exactly when [samples_count <= 0] or
    [upper_bound <= lower_bound] (the integrand never raising); and on these
    arguments, whatever the callable, the generator of [random] is left as it
    was: nothing is seeded and nothing is drawn. *)
Theorem invalid_arguments_raise_before_any_draw
  (function : callable) f lo hi N S g :
  ((exists msg,
      fst (estimate_integral_monte_carlo (total f) lo hi N S g)
      = Raise (ValueError msg))
   <-> ((N <= 0)%Z \/ (hi <=? lo) = true))
  /\ ((N <= 0)%Z \/ (hi <=? lo) = true ->
      exists msg,
        estimate_integral_monte_carlo function lo hi N S g
        = (Raise (ValueError msg), g)).
Proof.
  assert (Hinv : (N <= 0)%Z \/ (hi <=? lo) = true ->
                 forall fn : callable, exists msg,
                   estimate_integral_monte_carlo fn lo hi N S g
                   = (Raise (ValueError msg), g)).
  { intros H fn. unfold estimate_integral_monte_carlo.
    destruct (N <=? 0)%Z eqn:EN; [ eexists; reflexivity | ].
    destruct (hi <=? lo) eqn:Eb; [ eexists; reflexivity | ].
    apply Z.leb_gt in EN. destruct H; [ lia | discriminate ]. }
  split; [ split | ].
  - intros [msg Hmsg].
    destruct (N <=? 0)%Z eqn:EN; [ left; now apply Z.leb_le | ].
    destruct (hi <=? lo) eqn:Eb; [ right; reflexivity | ].
    apply Z.leb_gt in EN.
    destruct (estimate_valid f lo hi N S g EN Eb) as (ratio & _ & _ & _ & Hrun).
    rewrite Hrun in Hmsg. discriminate.
  - intro H. destruct (Hinv H (total f)) as [msg Hmsg].
    exists msg. now rewrite Hmsg.
  - intro H. exact (Hinv H function).
Qed.






(** C4. The counter of the loop grows exactly on the points with
    [y <= f(x)]: one pass adds one when [y_random <= f(x_random)] and nothing
    otherwise, so the loop returns the number of such points; a point with
    [y_random == f(x_random)] is counted. *)
Theorem boundary_is_inclusive f lo hi h n c g :
  let x_random := lo + (hi - lo) * draw g 0 in
  let y_random := 0 + (h - 0) * draw g 1 in
  sampling_loop (total f) lo hi h 1 c g
  = (Ok (if y_random <=? f x_random then (c + 1)%Z else c),
     next_state (next_state g))
  /\ ((y_random =? f x_random) = true ->
      sampling_loop (total f) lo hi h 1 c g
      = (Ok (c + 1)%Z, next_state (next_state g)))
  /\ fst (sampling_loop (total f) lo hi h n 0 g)
     = Ok (Z.of_nat (List.length
             (filter (fun p => snd p <=? f (fst p)) (samples lo hi h g n))))
  /\ (forall p, In p (samples lo hi h g n) ->
        (snd p =? f (fst p)) = true ->
        In p (filter (fun p => snd p <=? f (fst p)) (samples lo hi h g n))).
Proof.
  intros x_random y_random.
  assert (Hone : sampling_loop (total f) lo hi h 1 c g
                 = (Ok (if y_random <=? f x_random then (c + 1)%Z else c),
                    next_state (next_state g))).
  { rewrite sampling_loop_total, samples_succ, count_under_cons.
    unfold samples, under_curve, sample. simpl map. simpl seq.
    cbn [fst snd Nat.mul Nat.add Nat.iter]. fold x_random y_random.
    unfold count_under. simpl.
    destruct (y_random <=? f x_random); do 2 f_equal; lia. }
  split; [ exact Hone | ].
  split; [ | split ].
  - intro Heq. rewrite Hone, (eqb_le _ _ Heq). reflexivity.
  - rewrite sampling_loop_total. reflexivity.
  - intros p Hin Heq. apply filter_In. split; [ exact Hin | ].
    now apply eqb_le.
Qed.

(** C5. For fixed arguments the outcome of the call (the estimate or the
    exception) is the same whatever state the generator of [random] is in
    when the call starts. *)
Theorem estimate_is_deterministic (function : callable) lo hi N S g1 g2 :
  fst (estimate_integral_monte_carlo function lo hi N S g1)
  = fst (estimate_integral_monte_carlo function lo hi N S g2).
Proof.
  unfold estimate_integral_monte_carlo.
  destruct (N <=? 0)%Z; [ reflexivity | ].
  destruct (hi <=? lo); reflexivity.
Qed.





(** The statement of C10 as written, for one call: with a non-negative
    height the estimate lies between zero and the area of the rectangle. *)
Definition estimate_within_rectangle (f : float -> float) (lo hi : float)
  (N S : Z) (g : RandomObject) : Prop :=
  (0 < N)%Z -> (lo <? hi) = true -> (0 <=? Py.max (f lo) (f hi)) = true ->
  exists v,
    fst (estimate_integral_monte_carlo (total f) lo hi N S g) = Ok v
    /\ (0 <=? v) = true
    /\ (v <=? (hi - lo) * Py.max (f lo) (f hi)) = true.

(** C10, refuted as stated: on [[-1e308, 1e308]] the width overflows to
    infinity, the area of the rectangle of a zero integrand is then not a
    number, and neither is the estimate. *)
Lemma estimate_outside_rectangle :
  ~ estimate_within_rectangle (fun _ => 0) (-1e308) 1e308 1 42 some_generator.
Proof.
  unfold estimate_within_rectangle. intro H.
  destruct H as (v & Hv & H0 & _); [ lia | reflexivity | reflexivity | ].
  vm_compute in Hv. injection Hv as <-. vm_compute in H0. discriminate.
Qed.

(** C10, as the code has it: for a valid call on an integrand that never
    raises, when the area [(upper - lower) * max(f(lower), f(upper))] that the
    code computes is a finite float that is not negative, the estimate lies
    between zero and that area. *)
Theorem estimate_within_finite_rectangle f lo hi N S g :
  (0 < N)%Z -> (lo <? hi) = true ->
  let rectangle_area := (hi - lo) * Py.max (f lo) (f hi) in
  (0 <=? rectangle_area) = true -> (rectangle_area <? infinity) = true ->
  exists v,
    fst (estimate_integral_monte_carlo (total f) lo hi N S g) = Ok v
    /\ (0 <=? v) = true /\ (v <=? rectangle_area) = true.
Proof.
  intros HN Hlt area Ha0 Hafin.
  destruct (estimate_valid f lo hi N S g HN (ltb_not_ge _ _ Hlt))
    as (ratio & _ & H0 & H1 & Hrun).
  exists (ratio * area). rewrite Hrun. split; [ reflexivity | ].
  apply mul_unit_bound; assumption.
Qed.

Lemma estimate_within_finite_rectangle_witness :
  exists v,
    fst (estimate_integral_monte_carlo (total (fun x => x * x)) 0 2 3 42
           some_generator) = Ok v
    /\ (0 <=? v) = true
    /\ (v <=? (2 - 0) * Py.max (0 * 0) (2 * 2)) = true.
Proof.
  apply (estimate_within_finite_rectangle (fun x => x * x) 0 2 3 42
           some_generator);
    [ lia | reflexivity | reflexivity | reflexivity ].
Defined.

(* ================================================================== *)
(** ** Binary64: exact products and quotients, signs, opposites        *)
(* ================================================================== *)

Module Exact64.

Local Open Scope Z_scope.

Lemma Zdigits2_mul_pow2 (m : positive) k :
  0 <= k -> Zdigits2 (Zpos m * 2 ^ k) = Zpos (digits2_pos m) + k.
Proof.
  intro Hk. destruct (digits2_pos_bounds m) as [Hlo Hhi].
  assert (Hp : 0 < 2 ^ k) by (apply Z.pow_pos_nonneg; lia).
  assert (H1 : Zdigits2 (Zpos m * 2 ^ k) <= Zpos (digits2_pos m) + k).
  { apply Zdigits2_le_of_lt; try lia. rewrite Z.pow_add_r by lia. nia. }
  assert (H2 : Zpos (digits2_pos m) - 1 + k < Zdigits2 (Zpos m * 2 ^ k)).
  { apply Zdigits2_gt_of_le; try lia. rewrite Z.pow_add_r by lia. nia. }
  lia.
Qed.

Lemma shr_record_exact mrs :
  loc_of_shr_record mrs = loc_Exact ->
  mrs = Build_shr_record (shr_m mrs) false false.
Proof. destruct mrs as [m [ | ] [ | ]]; simpl; intro H; try discriminate; reflexivity. Qed.

(** A canonical float times a power of two, written with a longer mantissa,
    rounds to the float itself. *)
Lemma binary_round_aux_exact s (m : positive) e k :
  canonical64 m e -> e <= emax - prec -> 0 <= k ->
  binary_round_aux prec emax s (Zpos m * 2 ^ k) (e - k) loc_Exact
  = S754_finite s m e.
Proof.
  intros Hc Hb Hk. unfold canonical64 in Hc.
  assert (Hsecond : shr_fexp prec emax (Zpos m) e loc_Exact
                    = (Build_shr_record (Zpos m) false false, e)).
  { unfold shr_fexp. rewrite fexp_eq. simpl Zdigits2. rewrite Hc, Z.sub_diag.
    reflexivity. }
  assert (Hfin : (e <=? emax - prec) = true) by (apply Z.leb_le; lia).
  unfold binary_round_aux.
  destruct (Z.eq_dec k 0) as [-> | Hk0].
  - rewrite Z.mul_1_r, Z.sub_0_r, Hsecond. simpl round_nearest_even.
    rewrite Hsecond. simpl shr_m. now rewrite Hfin.
  - unfold shr_fexp at 1. rewrite fexp_eq, Zdigits2_mul_pow2 by lia.
    replace (Zpos (digits2_pos m) + k + (e - k)) with (Zpos (digits2_pos m) + e)
      by lia.
    rewrite Hc. replace (e - (e - k)) with k by lia.
    destruct (shr_pos_spec (Zpos m * 2 ^ k) loc_Exact (e - k) k)
      as (mrs & -> & Hm & Hex); try lia.
    rewrite Z.div_mul in Hm by (apply Z.pow_nonzero; lia).
    rewrite (shr_record_exact mrs)
      by (apply Hex; [ reflexivity | apply Z.mod_mul; apply Z.pow_nonzero; lia ]).
    rewrite Hm. simpl loc_of_shr_record. simpl shr_m. simpl round_nearest_even.
    replace (e - k + k) with e by lia.
    rewrite Hsecond. simpl shr_m. now rewrite Hfin.
Qed.

Lemma SFmul_unit_l A :
  valid_binary A = true -> SFmul prec emax SFunit A = A.
Proof.
  intro V. destruct A as [s | s | | s m e]; try reflexivity.
  destruct (valid_finite_inv _ _ _ V) as [Hc Hb].
  unfold SFunit, SFmul. simpl xorb.
  replace (Zpos (4503599627370496 * m)) with (Zpos m * 2 ^ 52)
    by (rewrite Pos2Z.inj_mul; change (2 ^ 52) with 4503599627370496; lia).
  replace (-52 + e) with (e - 52) by lia.
  apply binary_round_aux_exact; try assumption. lia.
Qed.

Lemma SFdiv_same (n : positive) :
  SFdiv prec emax (S754_finite false n 0) (S754_finite false n 0) = SFunit.
Proof.
  unfold SFdiv, SFdiv_core_binary. rewrite fexp_eq.
  replace (Zdigits2 (Zpos n) + 0 - (Zdigits2 (Zpos n) + 0)) with 0 by lia.
  change (Z.min (fexp64 0) (0 - 0)) with (-53).
  change (0 - 0 - -53) with 53.
  rewrite Z.shiftl_mul_pow2 by lia.
  pose proof (Z_div_mod (Zpos n * 2 ^ 53) (Zpos n) eq_refl) as Hdm.
  destruct (Z.div_eucl (Zpos n * 2 ^ 53) (Zpos n)) as [q r].
  destruct Hdm as [Hq Hr].
  assert (q = 2 ^ 53) by nia. assert (r = 0) by nia. subst q r.
  assert (Hl : new_location (Zpos n) 0 = loc_Exact).
  { unfold new_location, new_location_even, new_location_odd.
    destruct (Z.even (Zpos n)); reflexivity. }
  rewrite Hl. reflexivity.
Qed.

Lemma SFeqb_zero_inv X :
  SFeqb X SFzero = true -> exists s, X = S754_zero s.
Proof.
  destruct X as [s | [ | ] | | [ | ] m e]; try discriminate; eauto.
Qed.

Lemma SFltb_infinity_inv X :
  SFltb (SFabs X) (S754_infinity false) = true ->
  (exists s, X = S754_zero s) \/ exists s m e, X = S754_finite s m e.
Proof.
  destruct X as [s | s | | s m e]; try discriminate; eauto.
Qed.

Lemma SFcompare_refl X : X <> S754_nan -> SFcompare X X = Some Eq.
Proof.
  destruct X as [s | [ | ] | | [ | ] m e]; try reflexivity; try congruence;
    intros _; simpl; rewrite Z.compare_refl;
    change (Pos.compare_cont Eq m m) with (Pos.compare m m);
    now rewrite Pos.compare_refl.
Qed.

Lemma SFunit_is_finite X :
  SFleb SFzero X = true -> SFleb X SFunit = true ->
  SFltb (SFabs X) (S754_infinity false) = true.
Proof.
  destruct X as [s | [ | ] | | [ | ] m e]; try discriminate; reflexivity.
Qed.

End Exact64.

Import Exact64.

Lemma mul_one_l (a : float) : 1 * a = a.
Proof.
  apply Prim2SF_inj. rewrite mul_spec, Prim2SF_one.
  apply SFmul_unit_l, Prim2SF_valid.
Qed.

Lemma int_truediv_same (n : Z) : (0 < n)%Z -> int_truediv n n = Ok 1.
Proof.
  intro Hn. destruct n as [ | p | p ]; try lia.
  unfold int_truediv. rewrite SFdiv_same. reflexivity.
Qed.

Lemma int_truediv_zero (n : Z) : (0 < n)%Z -> int_truediv 0 n = Ok 0.
Proof. intro Hn. destruct n; try lia. reflexivity. Qed.

(** A float that is not infinite and not a NaN, times a zero, is a zero. *)
Lemma mul_zero_r (a z : float) :
  (abs a <? infinity) = true -> (z =? 0) = true -> (a * z =? 0) = true.
Proof.
  rewrite ltb_spec, !eqb_spec, abs_spec, mul_spec, Prim2SF_infinity, Prim2SF_zero.
  intros Ha Hz.
  destruct (SFeqb_zero_inv _ Hz) as [sz ->].
  destruct (SFltb_infinity_inv _ Ha) as [[s ->] | (s & m & e & ->)];
    reflexivity.
Qed.

Lemma mul_zero_l (z a : float) :
  (z =? 0) = true -> (abs a <? infinity) = true -> (z * a =? 0) = true.
Proof.
  rewrite ltb_spec, !eqb_spec, abs_spec, mul_spec, Prim2SF_infinity, Prim2SF_zero.
  intros Hz Ha.
  destruct (SFeqb_zero_inv _ Hz) as [sz ->].
  destruct (SFltb_infinity_inv _ Ha) as [[s ->] | (s & m & e & ->)];
    reflexivity.
Qed.

Lemma unit_is_finite (r : float) :
  (0 <=? r) = true -> (r <=? 1) = true -> (abs r <? infinity) = true.
Proof.
  rewrite !leb_spec, ltb_spec, abs_spec, Prim2SF_zero, Prim2SF_one,
    Prim2SF_infinity.
  apply SFunit_is_finite.
Qed.

Module Sign64.

Local Open Scope Z_scope.

(** Rounding a non-negative mantissa gives a float that is not negative. *)
Lemma binary_round_aux_nonneg m e l :
  0 <= m -> SFleb SFzero (binary_round_aux prec emax false m e l) = true.
Proof.
  intro Hm. unfold binary_round_aux.
  assert (Hshr : forall m0 e0 l0, 0 <= m0 ->
            0 <= shr_m (fst (shr_fexp prec emax m0 e0 l0))).
  { intros m0 e0 l0 H0. unfold shr_fexp.
    destruct (Z_lt_le_dec 0 (fexp prec emax (Zdigits2 m0 + e0) - e0)) as [Hn | Hn].
    - destruct (shr_pos_spec m0 l0 e0 _ H0 Hn) as (mrs & -> & Hmrs & _).
      simpl fst. rewrite Hmrs. apply Z.div_pos; [ lia | ].
      apply Z.pow_pos_nonneg; lia.
    - unfold shr.
      destruct (fexp prec emax (Zdigits2 m0 + e0) - e0); try lia;
        simpl fst; now rewrite shr_m_of_loc. }
  pose proof (Hshr m e l Hm) as H1.
  destruct (shr_fexp prec emax m e l) as [mrs1 e1]. simpl fst in H1.
  assert (H2 : 0 <= round_nearest_even (shr_m mrs1) (loc_of_shr_record mrs1)).
  { unfold round_nearest_even.
    destruct (loc_of_shr_record mrs1) as [ | [ | | ] ];
      try destruct (Z.even (shr_m mrs1)); lia. }
  pose proof (Hshr _ e1 loc_Exact H2) as H3.
  destruct (shr_fexp prec emax _ e1 loc_Exact) as [mrs2 e2]. simpl fst in H3.
  destruct (shr_m mrs2) as [ | p | p ]; try lia; try reflexivity.
  destruct (e2 <=? emax - prec); reflexivity.
Qed.

Lemma binary_normalize_nonneg d e :
  0 <= d -> SFleb SFzero (binary_normalize prec emax d e false) = true.
Proof.
  intro Hd. destruct d as [ | p | p ]; try lia; [ reflexivity | ].
  unfold binary_normalize, binary_round.
  destruct (shl_align p e (fexp prec emax (Zpos (digits2_pos p) + e))) as [mz ez].
  apply binary_round_aux_nonneg. lia.
Qed.

Lemma SFmul_nonneg W H :
  SFleb SFzero W = true -> SFleb SFzero H = true ->
  SFmul prec emax W H <> S754_nan ->
  SFleb SFzero (SFmul prec emax W H) = true.
Proof.
  intros HW HH Hnan.
  destruct (SFleb_zero_inv W HW) as [[sw ->] | [-> | (mw & ew & ->)]];
    destruct (SFleb_zero_inv H HH) as [[sh ->] | [-> | (mh & eh & ->)]];
    try reflexivity; try (now elim Hnan).
  unfold SFmul. simpl xorb. apply binary_round_aux_nonneg. lia.
Qed.

Lemma shl_align_value m e e' :
  e' <= e -> Zpos (fst (shl_align m e e')) = Zpos m * 2 ^ (e - e').
Proof.
  intro H. unfold shl_align.
  destruct (e' - e) as [ | d | d ] eqn:E; try lia.
  - replace (e - e') with 0 by lia. simpl fst. lia.
  - simpl fst. replace (e - e') with (Zpos d) by lia.
    change (Pos.iter xO m d) with (shift_pos d m).
    rewrite shift_pos_correct, Zpower_pos_nat, Zpower_nat_Z, positive_nat_Z.
    lia.
Qed.

Lemma canonical64_normal m e :
  canonical64 m e -> -1074 < e -> 2 ^ 52 <= Zpos m.
Proof.
  unfold canonical64, fexp64. intros Hc He.
  destruct (digits2_pos_bounds m) as [Hlo _].
  replace (Zpos (digits2_pos m) - 1) with 52 in Hlo by lia. exact Hlo.
Qed.

Lemma canonical64_min m e : canonical64 m e -> -1074 <= e.
Proof. unfold canonical64, fexp64. lia. Qed.

(** Of two canonical floats, the one with the larger exponent has the larger
    aligned mantissa. *)
Lemma aligned_lt m1 e1 m2 e2 :
  canonical64 m1 e1 -> canonical64 m2 e2 -> e1 < e2 ->
  Zpos m1 < Zpos m2 * 2 ^ (e2 - e1).
Proof.
  intros H1 H2 He.
  pose proof (canonical64_lt _ _ H1) as Hm1.
  pose proof (canonical64_min _ _ H1) as Hmin.
  pose proof (canonical64_normal _ _ H2 ltac:(lia)) as Hm2.
  assert (2 ^ 1 <= 2 ^ (e2 - e1)) by (apply Z.pow_le_mono_r; lia).
  change (2 ^ 1) with 2 in *. change (2 ^ 53) with (2 * 2 ^ 52) in Hm1. nia.
Qed.

(** The difference of two floats, the larger minus the smaller, is not
    negative (and not a NaN). *)
Lemma SFsub_nonneg X Y :
  valid_binary X = true -> valid_binary Y = true ->
  SFltb X Y = true ->
  SFleb SFzero (SFsub prec emax Y X) = true.
Proof.
  intros VX VY Hlt.
  destruct X as [sx | sx | | sx mx ex], Y as [sy | sy | | sy my ey];
    try discriminate;
    try (destruct sx, sy; try discriminate; reflexivity).
  destruct (valid_finite_inv _ _ _ VX) as [CX _].
  destruct (valid_finite_inv _ _ _ VY) as [CY _].
  unfold SFsub. apply binary_normalize_nonneg.
  rewrite !shl_align_value by lia.
  assert (Hpx : 0 < 2 ^ (ex - Z.min ey ex)) by (apply Z.pow_pos_nonneg; lia).
  assert (Hpy : 0 < 2 ^ (ey - Z.min ey ex)) by (apply Z.pow_pos_nonneg; lia).
  unfold SFltb, SFcompare in Hlt.
  destruct sx, sy; try discriminate; unfold cond_Zopp; try nia.
  - (* both negative: X < Y means the magnitude of X is the larger *)
    destruct (Z.compare_spec ex ey) as [He | He | He]; try discriminate.
    + subst ey. rewrite Z.min_id, Z.sub_diag in *. simpl (2 ^ 0).
      destruct (Pos.compare_cont Eq mx my) eqn:E; try discriminate.
      change (Pos.compare_cont Eq mx my) with (Pos.compare mx my) in E.
      apply Pos.compare_gt_iff in E. lia.
    + pose proof (aligned_lt my ey mx ex CY CX He).
      rewrite Z.min_l in * by lia. rewrite Z.sub_diag in *. simpl (2 ^ 0). lia.
  - (* both positive *)
    destruct (Z.compare_spec ex ey) as [He | He | He]; try discriminate.
    + subst ey. rewrite Z.min_id, Z.sub_diag in *. simpl (2 ^ 0).
      change (Pos.compare_cont Eq mx my) with (Pos.compare mx my) in Hlt.
      destruct (Pos.compare_spec mx my); try discriminate. lia.
    + pose proof (aligned_lt mx ex my ey CX CY He).
      rewrite Z.min_r in * by lia. rewrite Z.sub_diag in *. simpl (2 ^ 0). lia.
Qed.

End Sign64.

Import Sign64.

(** The width of a valid call is not negative. *)
Lemma width_nonneg (lo hi : float) :
  (lo <? hi) = true -> (0 <=? hi - lo) = true.
Proof.
  rewrite ltb_spec, leb_spec, sub_spec, Prim2SF_zero.
  apply SFsub_nonneg; apply Prim2SF_valid.
Qed.

Lemma mul_nonneg (w h : float) :
  (0 <=? w) = true -> (0 <=? h) = true -> (w * h <? infinity) = true ->
  (0 <=? w * h) = true.
Proof.
  rewrite !leb_spec, ltb_spec, mul_spec, Prim2SF_zero. intros Hw Hh Hf.
  apply SFmul_nonneg; try assumption.
  intro E. unfold SF64mul in Hf. rewrite E in Hf. discriminate.
Qed.

Module Opp64.

Lemma binary_round_aux_opp s m e l :
  binary_round_aux prec emax (negb s) m e l
  = SFopp (binary_round_aux prec emax s m e l).
Proof.
  unfold binary_round_aux.
  destruct (shr_fexp prec emax m e l) as [mrs1 e1].
  destruct (shr_fexp prec emax _ e1 loc_Exact) as [mrs2 e2].
  destruct (shr_m mrs2); try reflexivity.
  destruct (e2 <=? emax - prec)%Z; reflexivity.
Qed.

Lemma SFmul_opp_r R A :
  SFmul prec emax R (SFopp A) = SFopp (SFmul prec emax R A).
Proof.
  destruct R as [[ | ] | [ | ] | | sr mr er],
           A as [[ | ] | [ | ] | | sa ma ea];
    try reflexivity; try (destruct sr; reflexivity);
    try (destruct sa; reflexivity).
  unfold SFmul, SFopp at 1.
  rewrite <- binary_round_aux_opp. f_equal. destruct sr, sa; reflexivity.
Qed.

Lemma SFleb_opp X Y : SFleb (SFopp X) (SFopp Y) = SFleb Y X.
Proof.
  unfold SFleb.
  destruct X as [[ | ] | [ | ] | | sx mx ex],
           Y as [[ | ] | [ | ] | | sy my ey];
    try reflexivity; try (destruct sx; reflexivity);
    try (destruct sy; reflexivity).
  destruct sx, sy; try reflexivity; simpl;
    rewrite (Z.compare_antisym ex ey);
    destruct (ex ?= ey)%Z; try reflexivity; simpl;
    rewrite (compare_cont_Eq_antisym my mx);
    destruct (Pos.compare_cont Eq my mx); reflexivity.
Qed.

Lemma SFopp_involutive X : SFopp (SFopp X) = X.
Proof. destruct X as [[ | ] | [ | ] | | [ | ] m e]; reflexivity. Qed.

Lemma valid_opp X : valid_binary (SFopp X) = valid_binary X.
Proof. destruct X; reflexivity. Qed.

(** The product of a float in [[0, 1]] and a finite float [A <= 0] lies
    between [A] and zero. *)
Lemma SFmul_unit_bound_neg R A :
  valid_binary R = true -> valid_binary A = true ->
  SFleb SFzero R = true -> SFleb R SFunit = true ->
  SFleb A SFzero = true -> SFltb (S754_infinity true) A = true ->
  SFleb A (SFmul prec emax R A) = true
  /\ SFleb (SFmul prec emax R A) SFzero = true.
Proof.
  intros VR VA HR0 HR1 HA0 HAinf.
  assert (H0 : SFleb SFzero (SFopp A) = true).
  { destruct A as [[ | ] | [ | ] | | [ | ] m e]; try discriminate; reflexivity. }
  assert (Hinf : SFltb (SFopp A) (S754_infinity false) = true).
  { destruct A as [[ | ] | [ | ] | | [ | ] m e]; try discriminate; reflexivity. }
  destruct (SFmul_unit_bound R (SFopp A)) as [Hlo Hhi]; try assumption.
  { now rewrite valid_opp. }
  rewrite SFmul_opp_r in Hlo, Hhi. split.
  - rewrite <- (SFleb_opp (SFmul prec emax R A) A). exact Hhi.
  - rewrite <- (SFleb_opp SFzero (SFmul prec emax R A)).
    destruct (SFopp (SFmul prec emax R A)) as [[ | ] | [ | ] | | [ | ] m e];
      try discriminate; reflexivity.
Qed.

End Opp64.

Import Opp64.

Lemma mul_unit_bound_neg (r a : float) :
  (0 <=? r) = true -> (r <=? 1) = true ->
  (a <=? 0) = true -> (neg_infinity <? a) = true ->
  (a <=? r * a) = true /\ (r * a <=? 0) = true.
Proof.
  rewrite !leb_spec, ltb_spec, mul_spec.
  rewrite Prim2SF_zero, Prim2SF_one.
  change (Prim2SF neg_infinity) with (S754_infinity true).
  intros H1 H2 H3 H4.
  apply SFmul_unit_bound_neg; auto using Prim2SF_valid.
Qed.

(* ================================================================== *)
(** ** The range of [**]                                               *)
(* ================================================================== *)

Module Range64.
Local Open Scope Z_scope.

Lemma scaled_le_spec a ea b eb k :
k <= ea -> k <= eb ->
(scaled_le a ea b eb = true <-> a * 2 ^ (ea - k) <= b * 2 ^ (eb - k)).
Proof.
intros Ha Hb. unfold scaled_le.
set (m := Z.min ea eb).
assert (Hm : k <= m) by (unfold m; lia).
assert (Hma : m <= ea) by (unfold m; lia).
assert (Hmb : m <= eb) by (unfold m; lia).
replace (ea - k) with ((ea - m) + (m - k)) by lia.
replace (eb - k) with ((eb - m) + (m - k)) by lia.
rewrite !Z.pow_add_r, !Z.mul_assoc by lia.
assert (Hp : 0 < 2 ^ (m - k)) by (apply Z.pow_pos_nonneg; lia).
rewrite Z.leb_le. split; intro H.
- apply Z.mul_le_mono_nonneg_r; lia.
- apply Z.mul_le_mono_pos_r in H; assumption.
Qed.

(** A canonical float that compares below a normal one has the smaller
  value. *)
Lemma SFleb_value m e mT eT :
canonical64 m e -> canonical64 mT eT ->
SFleb (S754_finite false m e) (S754_finite false mT eT) = true ->
e <= eT /\ Zpos m <= Zpos mT * 2 ^ (eT - e).
Proof.
intros Hc HT. unfold SFleb, SFcompare.
destruct (Z.compare_spec e eT) as [He | Hlt | Hgt]; try discriminate.
- intro H. split; [ lia | ]. rewrite He, Z.sub_diag, Z.mul_1_r.
  apply compare_cont_Eq_le. intro E. rewrite E in H. discriminate.
- intros _. split; [ lia | ].
  pose proof (aligned_lt m e mT eT Hc HT Hlt). lia.
Qed.

(** The exact power of a float below [T] is below the bound that the exact
  power of [T] is below. *)
Lemma power_le m e mT eT (n : positive) B eB :
e <= eT -> Zpos m <= Zpos mT * 2 ^ (eT - e) ->
Zpos n * eT <= eB ->
Zpos mT ^ Zpos n <= B * 2 ^ (eB - Zpos n * eT) ->
scaled_le (Zpos m ^ Zpos n) (Zpos n * e) B eB = true.
Proof.
intros He Hm HeB Hclosed.
apply (scaled_le_spec _ _ _ _ (Zpos n * e)); [ lia | nia | ].
rewrite Z.sub_diag, Z.mul_1_r.
apply Z.le_trans with ((Zpos mT * 2 ^ (eT - e)) ^ Zpos n).
- apply Z.pow_le_mono_l. lia.
- rewrite Z.pow_mul_l, <- Z.pow_mul_r by lia.
  replace (eB - Zpos n * e) with ((eB - Zpos n * eT) + (eT - e) * Zpos n)
    by lia.
  rewrite Z.pow_add_r, Z.mul_assoc by nia.
  apply Z.mul_le_mono_nonneg_r; [ apply Z.pow_nonneg; lia | exact Hclosed ].
Qed.

Lemma power_ge m e mT eT (n : positive) k :
eT <= e -> Zpos mT <= Zpos m * 2 ^ (e - eT) ->
Zpos n * eT <= k ->
2 ^ (k - Zpos n * eT) <= Zpos mT ^ Zpos n ->
scaled_le 1 k (Zpos m ^ Zpos n) (Zpos n * e) = true.
Proof.
intros He Hm Hk Hclosed.
assert (Hpow : Zpos mT ^ Zpos n <= Zpos m ^ Zpos n * 2 ^ ((e - eT) * Zpos n)).
{ rewrite Z.pow_mul_r, <- Z.pow_mul_l by lia.
  apply Z.pow_le_mono_l. lia. }
apply (scaled_le_spec _ _ _ _ (Zpos n * eT)); [ lia | nia | ].
rewrite Z.mul_1_l.
replace (Zpos n * e - Zpos n * eT) with ((e - eT) * Zpos n) by lia.
lia.
Qed.



Lemma power_in_range_below X mT eT (n : positive) :
valid_binary X = true -> canonical64 mT eT ->
Zpos n * eT <= 971 ->
Zpos mT ^ Zpos n <= 9007199254740991 * 2 ^ (971 - Zpos n * eT) ->
SFleb (SFabs X) (S754_finite false mT eT) = true ->
match X with
| S754_zero _ => true
| S754_finite _ m e =>
    scaled_le (Zpos m ^ Zpos n) (Zpos n * e) 9007199254740991 971
| _ => false
end = true.
Proof.
intros V HT HeT Hclosed Hle.
destruct X as [s | s | | s m e]; try discriminate; [ reflexivity | ].
simpl SFabs in Hle.
destruct (valid_finite_inv _ _ _ V) as [Hc _].
destruct (SFleb_value m e mT eT Hc HT Hle) as [He Hm].
now apply (power_le m e mT eT).
Qed.

Lemma power_out_of_range_above X mT eT (n : positive) :
valid_binary X = true -> canonical64 mT eT ->
Zpos n * eT <= 1024 ->
2 ^ (1024 - Zpos n * eT) <= Zpos mT ^ Zpos n ->
SFleb (S754_finite false mT eT) (SFabs X) = true ->
SFltb (SFabs X) (S754_infinity false) = true ->
exists s m e,
  X = S754_finite s m e /\ eT <= e
  /\ scaled_le 1 1024 (Zpos m ^ Zpos n) (Zpos n * e) = true.
Proof.
intros V HT HeT Hclosed Hle Hfin.
destruct X as [s | s | | s m e]; try discriminate.
simpl SFabs in Hle.
destruct (valid_finite_inv _ _ _ V) as [Hc _].
destruct (SFleb_value mT eT m e HT Hc Hle) as [He Hm].
exists s, m, e. split; [ reflexivity | split; [ exact He | ] ].
now apply (power_ge m e mT eT).
Qed.

End Range64.

Import Range64.

(** On a float that is neither a NaN nor a zero, the base that [float_pow]
    hands to [pow] is the absolute value. *)
Lemma magnitude_is_abs (x : float) :
  is_nan x = false -> (x =? 0) = false ->
  (if x <? 0 then - x else x) = abs x.
Proof.
  unfold is_nan. rewrite negb_false_iff, !eqb_spec, ltb_spec, Prim2SF_zero.
  intros Hn Hz. apply Prim2SF_inj.
  assert (H : Prim2SF (if SFltb (Prim2SF x) SFzero then - x else x)
              = SFabs (Prim2SF x)).
  { destruct (Prim2SF x) as [s | [ | ] | | [ | ] m e] eqn:E;
      try discriminate;
      change (SFltb _ SFzero) with true || change (SFltb _ SFzero) with false;
      cbv iota; rewrite ?opp_spec, E; reflexivity. }
  rewrite abs_spec. exact H.
Qed.

(** [x ** n] returns when [pow] is finite at [|x|]. *)
Lemma float_pow_finite pow (x : float) (n : positive) :
  is_infinity (pow (abs x) n) = false ->
  exists u, float_pow pow x n = Ok u.
Proof.
  intro H. unfold float_pow.
  destruct (is_nan x) eqn:En; [ eexists; reflexivity | ].
  destruct (is_infinity x); [ eexists; reflexivity | ].
  destruct (x =? 0) eqn:Ez; [ eexists; reflexivity | ].
  cbv zeta. rewrite (magnitude_is_abs x En Ez).
  destruct (abs x =? 1); [ eexists; reflexivity | ].
  rewrite H. eexists; reflexivity.
Qed.

(** [x ** n] raises [OverflowError] when [pow] is infinite at [|x|], for a
    finite [x] of magnitude above one. *)
Lemma float_pow_overflow pow (x : float) (n : positive) s m e :
  Prim2SF x = S754_finite s m e -> (-52 < e)%Z ->
  is_infinity (pow (abs x) n) = true ->
  float_pow pow x n = Raise OverflowError.
Proof.
  intros Hx He H. unfold float_pow.
  assert (En : is_nan x = false).
  { unfold is_nan. rewrite eqb_spec, Hx. unfold SFeqb.
    rewrite SFcompare_refl by discriminate. reflexivity. }
  assert (Ei : is_infinity x = false).
  { unfold is_infinity. rewrite eqb_spec, abs_spec, Hx. reflexivity. }
  assert (Ez : (x =? 0) = false).
  { rewrite eqb_spec, Hx. destruct s; reflexivity. }
  rewrite En, Ei, Ez. cbv zeta. rewrite (magnitude_is_abs x En Ez).
  assert (E1 : (abs x =? 1) = false).
  { rewrite eqb_spec, abs_spec, Hx, Prim2SF_one.
    unfold SFeqb, SFunit, SFabs, SFcompare.
    destruct (Z.compare_spec e (-52)) as [H1 | H1 | H1];
      try reflexivity; lia. }
  rewrite E1, H. reflexivity.
Qed.

Lemma right_about_range_finite pow (x : float) (n : positive) :
  right_about_range pow x n = true -> power_in_range x n = true ->
  is_infinity (pow x n) = false.
Proof.
  unfold right_about_range. intros H Hp. rewrite Hp in H.
  apply andb_true_iff in H. destruct H as [H _].
  simpl in H. now apply negb_true_iff in H.
Qed.

Lemma right_about_range_infinite pow (x : float) (n : positive) :
  right_about_range pow x n = true -> power_out_of_range x n = true ->
  is_infinity (pow x n) = true.
Proof.
  unfold right_about_range. intros H Hp. rewrite Hp in H.
  apply andb_true_iff in H. destruct H as [_ H]. exact H.
Qed.

(** Below the float [T], whose exact [n]-th power is at most the largest
    float, [x ** n] returns. *)
Lemma float_pow_in_range pow (x T : float) (n : positive) mT eT :
  Prim2SF T = S754_finite false mT eT -> canonical64 mT eT ->
  (Zpos n * eT <= 971)%Z ->
  (Zpos mT ^ Zpos n <= 9007199254740991 * 2 ^ (971 - Zpos n * eT))%Z ->
  right_about_range pow (abs x) n = true ->
  (abs x <=? T) = true ->
  exists u, float_pow pow x n = Ok u.
Proof.
  intros HT Hc HeT Hclosed Hpow Hx.
  apply float_pow_finite.
  apply (right_about_range_finite _ _ _ Hpow).
  unfold power_in_range.
  rewrite leb_spec, HT in Hx.
  assert (V : valid_binary (Prim2SF (abs x)) = true) by apply Prim2SF_valid.
  assert (Hx' : SFleb (SFabs (Prim2SF (abs x))) (S754_finite false mT eT) = true).
  { rewrite abs_spec in *. now destruct (Prim2SF x). }
  exact (power_in_range_below _ mT eT n V Hc HeT Hclosed Hx').
Qed.

(** From the float [T] on, whose exact [n]-th power is [2^1024] or more,
    [x ** n] raises [OverflowError] on a finite [x]. *)
Lemma float_pow_out_of_range pow (x T : float) (n : positive) mT eT :
  Prim2SF T = S754_finite false mT eT -> canonical64 mT eT ->
  (-52 < eT)%Z -> (Zpos n * eT <= 1024)%Z ->
  (2 ^ (1024 - Zpos n * eT) <= Zpos mT ^ Zpos n)%Z ->
  right_about_range pow (abs x) n = true ->
  (T <=? abs x) = true -> (abs x <? infinity) = true ->
  float_pow pow x n = Raise OverflowError.
Proof.
  intros HT Hc HeT52 HeT Hclosed Hpow Hx Hfin.
  rewrite leb_spec, HT, abs_spec in Hx.
  rewrite ltb_spec, abs_spec, Prim2SF_infinity in Hfin.
  destruct (power_out_of_range_above _ mT eT n (Prim2SF_valid x) Hc HeT
              Hclosed Hx Hfin) as (s & m & e & HX & He & Hout).
  apply (float_pow_overflow pow x n s m e HX); [ lia | ].
  apply (right_about_range_infinite _ _ _ Hpow).
  unfold power_out_of_range. rewrite abs_spec, HX. exact Hout.
Qed.

Lemma float_pow_raises_overflow_only pow (x : float) (n : positive) e :
  float_pow pow x n = Raise e -> e = OverflowError.
Proof.
  unfold float_pow.
  repeat match goal with
         | |- context [if ?c then _ else _] => destruct c
         end; intro H; try discriminate; now injection H.
Qed.

(** [x ** 3] on both sides of the threshold. *)
Lemma cube_in_range pow (x : float) :
  right_about_range pow (abs x) 3 = true ->
  (abs x <=? 0x1.428a2f98d728ap+341) = true ->
  exists u, float_pow pow x 3 = Ok u.
Proof.
  apply (float_pow_in_range pow x _ 3 5674179970822794 289);
    [ reflexivity | reflexivity | lia | apply Z.leb_le; reflexivity ].
Qed.

Lemma cube_out_of_range pow (x : float) :
  right_about_range pow (abs x) 3 = true ->
  (0x1.428a2f98d728bp+341 <=? abs x) = true -> (abs x <? infinity) = true ->
  float_pow pow x 3 = Raise OverflowError.
Proof.
  apply (float_pow_out_of_range pow x _ 3 5674179970822795 289);
    [ reflexivity | reflexivity | lia | lia | apply Z.leb_le; reflexivity ].
Qed.

Lemma square_in_range pow (x : float) :
  right_about_range pow (abs x) 2 = true ->
  (abs x <=? 0x1.fffffffffffffp+511) = true ->
  exists u, float_pow pow x 2 = Ok u.
Proof.
  apply (float_pow_in_range pow x _ 2 9007199254740991 459);
    [ reflexivity | reflexivity | lia | apply Z.leb_le; reflexivity ].
Qed.

Lemma square_out_of_range pow (x : float) :
  right_about_range pow (abs x) 2 = true ->
  (0x1p512 <=? abs x) = true -> (abs x <? infinity) = true ->
  float_pow pow x 2 = Raise OverflowError.
Proof.
  apply (float_pow_out_of_range pow x _ 2 4503599627370496 460);
    [ reflexivity | reflexivity | lia | lia | apply Z.leb_le; reflexivity ].
Qed.

(* ================================================================== *)
(** ** Properties of the reference values                              *)
(* ================================================================== *)

(** The statement of C8 as written, with a C library whose [pow] is right
    about the range at the two bounds: on finite bounds the closed form
    returns a float. *)
Definition analytic_integral_never_raises : Prop :=
  forall pow lo hi,
    right_about_range pow (abs lo) 3 = true ->
    right_about_range pow (abs hi) 3 = true ->
    is_finite lo = true -> is_finite hi = true ->
    exists v, analytic_integral_x_squared pow lo hi = Ok v.

(** C8, refuted as stated: the cube of [1e200] is out of range, [pow] returns
    infinity for it, and [analytic_integral_x_squared(0.0, 1e200)] raises
    [OverflowError]. *)
Lemma analytic_integral_overflows : ~ analytic_integral_never_raises.
Proof.
  intro H.
  destruct (H rounded_pow 0 1e200) as [v Hv]; try (vm_compute; reflexivity).
  vm_compute in Hv. discriminate.
Qed.

(** C8, as the code has it: the result is a function of the two bounds (and
    of the C library's [pow]) only.  With a [pow] that is right about the
    range at the two bounds, the call raises nothing and returns
    [(upper ** 3 - lower ** 3) / 3.0] for bounds of magnitude at most
    [0x1.428a2f98d728ap+341] (about [5.6438e102], the largest float whose
    cube is in range), and it raises [OverflowError] as soon as a finite
    bound is larger in magnitude: the next float is the first whose cube is
    out of range. *)
Theorem analytic_integral_in_range pow lo hi :
  right_about_range pow (abs lo) 3 = true ->
  right_about_range pow (abs hi) 3 = true ->
  ((abs lo <=? 0x1.428a2f98d728ap+341) = true ->
   (abs hi <=? 0x1.428a2f98d728ap+341) = true ->
   exists u3 l3,
     float_pow pow hi 3 = Ok u3 /\ float_pow pow lo 3 = Ok l3
     /\ analytic_integral_x_squared pow lo hi = Ok ((u3 - l3) / 3))
  /\ ((0x1.428a2f98d728bp+341 <=? abs hi) = true
        /\ (abs hi <? infinity) = true
      \/ (0x1.428a2f98d728bp+341 <=? abs lo) = true
         /\ (abs lo <? infinity) = true ->
      analytic_integral_x_squared pow lo hi = Raise OverflowError)
  /\ next_up 0x1.428a2f98d728ap+341 = 0x1.428a2f98d728bp+341.
Proof.
  intros Hlo Hhi. split; [ | split; [ | reflexivity ] ].
  - intros Blo Bhi.
    destruct (cube_in_range pow hi Hhi Bhi) as [u3 Hu].
    destruct (cube_in_range pow lo Hlo Blo) as [l3 Hl].
    exists u3, l3. unfold analytic_integral_x_squared.
    rewrite Hu, Hl. repeat split.
  - unfold analytic_integral_x_squared, rbind.
    intros [[B F] | [B F]].
    + now rewrite (cube_out_of_range pow hi Hhi B F).
    + destruct (float_pow pow hi 3) as [u3 | e] eqn:Eu.
      * now rewrite (cube_out_of_range pow lo Hlo B F).
      * now rewrite (float_pow_raises_overflow_only _ _ _ _ Eu).
Qed.

Lemma analytic_integral_in_range_witness :
  ((abs 0 <=? 0x1.428a2f98d728ap+341) = true ->
   (abs 2 <=? 0x1.428a2f98d728ap+341) = true ->
   exists u3 l3,
     float_pow rounded_pow 2 3 = Ok u3 /\ float_pow rounded_pow 0 3 = Ok l3
     /\ analytic_integral_x_squared rounded_pow 0 2 = Ok ((u3 - l3) / 3))
  /\ ((0x1.428a2f98d728bp+341 <=? abs 2) = true
        /\ (abs 2 <? infinity) = true
      \/ (0x1.428a2f98d728bp+341 <=? abs 0) = true
         /\ (abs 0 <? infinity) = true ->
      analytic_integral_x_squared rounded_pow 0 2 = Raise OverflowError)
  /\ next_up 0x1.428a2f98d728ap+341 = 0x1.428a2f98d728bp+341.
Proof.
  apply (analytic_integral_in_range rounded_pow 0 2); vm_compute; reflexivity.
Defined.

(** [x ** n] calls [pow] once, at [x] when [x] is not negative. *)
Lemma float_pow_one_call pow (x : float) (n : positive) :
  (x <? 0) = false ->
  float_pow pow x n = float_pow (fun _ _ => pow x n) x n.
Proof. intro H. unfold float_pow. rewrite H. reflexivity. Qed.

Lemma same_test_nearby_spec pow (x y : float) :
  same_test_nearby (x, y) = true ->
  within_one_ulp (pow x 2%positive) (x * x) = true ->
  exists v,
    integrand_function pow x = Ok v /\ (y <=? v) = (y <=? x * x).
Proof.
  unfold same_test_nearby, within_one_ulp, integrand_function.
  intros H Hp. apply andb_true_iff in H. destruct H as [Hx H].
  apply negb_true_iff in Hx. rewrite (float_pow_one_call pow x 2 Hx).
  cbn [forallb] in H.
  apply andb_true_iff in H. destruct H as [H1 H].
  apply andb_true_iff in H. destruct H as [H2 H].
  apply andb_true_iff in H. destruct H as [H3 _].
  assert (Hc : pow x 2%positive = next_down (x * x)
               \/ pow x 2%positive = x * x
               \/ pow x 2%positive = next_up (x * x)).
  { apply orb_true_iff in Hp. destruct Hp as [Hp | Hp].
    - apply orb_true_iff in Hp. destruct Hp as [Hp | Hp];
        apply FloatAxioms.Leibniz.eqb_spec in Hp; auto.
    - apply FloatAxioms.Leibniz.eqb_spec in Hp; auto. }
  destruct Hc as [-> | [-> | ->]];
    match goal with
    | Hk : match ?r with Ok _ => _ | Raise _ => _ end = true |- _ =>
        match goal with
        | |- exists v, ?r' = Ok v /\ _ =>
            unify r r'; destruct r as [v | e]; [ | discriminate Hk ];
            exists v; split; [ reflexivity | now apply eqb_prop ]
        end
    end.
Qed.

(** The documented run with the square as one rounded product. *)
Lemma documented_run_by_product g :
  fst (estimate_integral_monte_carlo (total (fun x => x * x)) 0 2 200000 42 g)
  = Ok 2.66688.
Proof. vm_compute. reflexivity. Qed.

(** At every point of the documented run the test of line 73 is the same for
    the three floats around the square. *)
Lemma documented_run_is_robust :
  all_points same_test_nearby 0 2 4 (Random.seed_state 42) (Z.to_nat 200000)
  = true.
Proof. vm_compute. reflexivity. Qed.

(** The documented run, [estimate_integral_monte_carlo(integrand_function,
    0.0, 2.0, 200_000, 42)], with a C library whose [pow] is accurate on it. *)
Lemma documented_run pow g :
  accurate_on_documented_run pow = true ->
  fst (estimate_integral_monte_carlo (integrand_function pow) 0 2 200000 42 g)
  = Ok 2.66688
  /\ analytic_integral_x_squared pow 0 2 = Ok (8 / 3).
Proof.
  unfold accurate_on_documented_run. intro H.
  apply andb_true_iff in H. destruct H as [H Hacc].
  apply andb_true_iff in H. destruct H as [H2 H3].
  apply FloatAxioms.Leibniz.eqb_spec in H2, H3.
  assert (Hhi : integrand_function pow 2 = Ok 4).
  { unfold integrand_function.
    rewrite (float_pow_one_call pow 2 2 eq_refl), H2. reflexivity. }
  split.
  - rewrite <- (documented_run_by_product g). apply (f_equal fst).
    apply (estimate_same_tests (integrand_function pow) (fun x => x * x)).
    + reflexivity.
    + exact Hhi.
    + intros i Hi p. change (Py.max (0 * 0) (2 * 2)) with 4 in p.
      pose proof (all_points_nth _ _ _ _ _ _ i documented_run_is_robust Hi)
        as Hrob.
      pose proof (abscissas_nth _ _ _ _ _ i Hacc Hi) as Hp.
      cbv beta in Hp.
      fold p in Hrob. destruct p as [x y] eqn:Ep.
      assert (Hx : x = 0 + (2 - 0) * draw (Random.seed_state 42) (2 * i)).
      { change x with (fst (x, y)). rewrite <- Ep. reflexivity. }
      rewrite <- Hx in Hp. cbn [fst snd].
      exact (same_test_nearby_spec pow x y Hrob Hp).
  - unfold analytic_integral_x_squared.
    rewrite (float_pow_one_call pow 2 3 eq_refl), H3. reflexivity.
Qed.

(** The correctly rounded [pow] is accurate on the documented run. *)
Lemma rounded_pow_is_accurate : accurate_on_documented_run rounded_pow = true.
Proof.
  unfold accurate_on_documented_run.
  apply andb_true_iff. split; [ vm_compute; reflexivity | ].
  apply forallb_forall. intros x _. unfold within_one_ulp.
  rewrite rounded_pow_2.
  apply orb_true_iff. left. apply orb_true_iff. right.
  now apply FloatAxioms.Leibniz.eqb_spec.
Qed.

(** C9. With the square computed as the rounded product [x * x], the
    documented call returns [2.66688], whose distance to [8/3] is at most
    [0.05]. *)
Theorem documented_run_is_close g :
  exists v,
    fst (estimate_integral_monte_carlo (total (fun x => x * x)) 0 2 200000 42 g)
    = Ok v
    /\ v = 2.66688
    /\ (abs (v - 8 / 3) <=? 0.05) = true.
Proof.
  exists 2.66688. split; [ apply documented_run_by_product | ].
  split; reflexivity.
Qed.

(** C7. Without SciPy [try_quad_integration] returns [None] and raises
    nothing, and [main] runs to its end: with a C library whose [pow] is
    accurate on the run it prints the estimate, the analytic value, their
    distance and the notice, and returns.  With SciPy the function returns
    the pair that [quad] returned (and raises only what [quad] raised). *)
Theorem quadrature_is_optional pow :
  accurate_on_documented_run pow = true ->
  (forall function lo hi, try_quad_integration None function lo hi = Ok None)
  /\ (forall g,
        fst (main pow None g)
        = Ok [ Header;
               MonteCarloLine 200000 2.66688;
               AnalyticLine (8 / 3);
               DifferenceLine (abs (2.66688 - 8 / 3));
               ScipyMissingLine ])
  /\ (forall (quad : quad_function) function lo hi,
        try_quad_integration (Some quad) function lo hi
        = match quad function lo hi with
          | Ok (result_value, abs_error_estimate) =>
              Ok (Some (result_value, abs_error_estimate))
          | Raise e => Raise e
          end).
Proof.
  intro Hacc. split; [ reflexivity | split ].
  - intro g. destruct (documented_run pow g Hacc) as [Hrun Han].
    unfold main. cbv zeta. unfold bind at 1.
    destruct (estimate_integral_monte_carlo (integrand_function pow)
                0 2 200000 42 g) as [r g1].
    simpl fst in Hrun. subst r.
    unfold bind at 1. unfold call at 1. rewrite Han. reflexivity.
  - intros quad function lo hi. unfold try_quad_integration, rbind.
    destruct (quad function lo hi) as [[v e] | e]; reflexivity.
Qed.

Lemma quadrature_is_optional_witness :
  (forall function lo hi, try_quad_integration None function lo hi = Ok None)
  /\ (forall g,
        fst (main rounded_pow None g)
        = Ok [ Header;
               MonteCarloLine 200000 2.66688;
               AnalyticLine (8 / 3);
               DifferenceLine (abs (2.66688 - 8 / 3));
               ScipyMissingLine ])
  /\ (forall (quad : quad_function) function lo hi,
        try_quad_integration (Some quad) function lo hi
        = match quad function lo hi with
          | Ok (result_value, abs_error_estimate) =>
              Ok (Some (result_value, abs_error_estimate))
          | Raise e => Raise e
          end).
Proof.
  apply (quadrature_is_optional rounded_pow). exact rounded_pow_is_accurate.
Defined.

(* ================================================================== *)
(** ** More on [integrand_function] and [analytic_integral_x_squared]  *)
(* ================================================================== *)

Lemma is_nan_inv (x : float) : is_nan x = true -> Prim2SF x = S754_nan.
Proof.
  unfold is_nan. rewrite eqb_spec. unfold SFeqb. intro H.
  destruct (Prim2SF x) as [s | s | | s m e] eqn:E; try reflexivity;
    rewrite SFcompare_refl in H by discriminate; discriminate.
Qed.

Lemma is_nan_of_spec (x : float) : Prim2SF x = S754_nan -> is_nan x = true.
Proof. intro H. unfold is_nan. rewrite eqb_spec, H. reflexivity. Qed.

Lemma mul_nan_r (w h : float) : is_nan h = true -> is_nan (w * h) = true.
Proof.
  intro H. apply is_nan_inv in H. apply is_nan_of_spec.
  rewrite mul_spec, H. unfold SF64mul. destruct (Prim2SF w); reflexivity.
Qed.

Lemma max_nan_l (a b : float) : is_nan a = true -> Py.max a b = a.
Proof.
  intro H. apply is_nan_inv in H. unfold Py.max.
  rewrite ltb_spec, H. reflexivity.
Qed.

Lemma max_nan_r (a b : float) : is_nan b = true -> Py.max a b = a.
Proof.
  intro H. apply is_nan_inv in H. unfold Py.max.
  rewrite ltb_spec, H. destruct (Prim2SF a); reflexivity.
Qed.

(** [integrand_function(x)] returns for every [x] of magnitude at most
    [0x1.fffffffffffffp+511], the largest float whose square is in range, and
    raises [OverflowError] for every finite [x] of magnitude [2^512] (the
    next float) or more, with a [pow] that is right about the range at
    [|x|]. *)
Theorem integrand_function_range pow (x : float) :
  right_about_range pow (abs x) 2 = true ->
  ((abs x <=? 0x1.fffffffffffffp+511) = true ->
   exists v, integrand_function pow x = Ok v)
  /\ ((0x1p512 <=? abs x) = true -> (abs x <? infinity) = true ->
      integrand_function pow x = Raise OverflowError)
  /\ next_up 0x1.fffffffffffffp+511 = 0x1p512.
Proof.
  intro Hpow. split; [ | split; [ | reflexivity ] ].
  - apply square_in_range. exact Hpow.
  - apply square_out_of_range. exact Hpow.
Qed.

Lemma integrand_function_range_witness :
  ((abs 1e200 <=? 0x1.fffffffffffffp+511) = true ->
   exists v, integrand_function rounded_pow 1e200 = Ok v)
  /\ ((0x1p512 <=? abs 1e200) = true -> (abs 1e200 <? infinity) = true ->
      integrand_function rounded_pow 1e200 = Raise OverflowError)
  /\ next_up 0x1.fffffffffffffp+511 = 0x1p512.
Proof.
  apply (integrand_function_range rounded_pow 1e200). vm_compute. reflexivity.
Defined.

(** The run of [main] does not depend on the last place of [pow]: with every
    C library whose squares are within one unit in the last place at the
    abscissas of the run (and exact on [2 ** 2] and [2 ** 3]), the call
    [estimate_integral_monte_carlo(integrand_function, 0.0, 2.0, 200_000, 42)]
    returns [2.66688] and [analytic_integral_x_squared(0.0, 2.0)] returns
    [8/3]. *)
Theorem documented_run_whatever_the_last_place pow g :
  accurate_on_documented_run pow = true ->
  fst (estimate_integral_monte_carlo (integrand_function pow) 0 2 200000 42 g)
  = Ok 2.66688
  /\ analytic_integral_x_squared pow 0 2 = Ok (8 / 3)
  /\ (abs (2.66688 - 8 / 3) <=? 0.05) = true.
Proof.
  intro Hacc. destruct (documented_run pow g Hacc) as [Hrun Han].
  split; [ exact Hrun | split; [ exact Han | reflexivity ] ].
Qed.

Lemma documented_run_whatever_the_last_place_witness :
  fst (estimate_integral_monte_carlo (integrand_function rounded_pow)
         0 2 200000 42 some_generator)
  = Ok 2.66688
  /\ analytic_integral_x_squared rounded_pow 0 2 = Ok (8 / 3)
  /\ (abs (2.66688 - 8 / 3) <=? 0.05) = true.
Proof.
  apply (documented_run_whatever_the_last_place rounded_pow some_generator).
  exact rounded_pow_is_accurate.
Defined.

(* ================================================================== *)
(** ** More on [estimate_integral_monte_carlo]                         *)
(* ================================================================== *)

Lemma filter_all {A} (f : A -> bool) (l : list A) :
  forallb f l = true -> filter f l = l.
Proof.
  induction l as [ | a l IH ]; [ reflexivity | ]. simpl.
  intro H. apply andb_true_iff in H. destruct H as [Ha Hl].
  rewrite Ha. f_equal. now apply IH.
Qed.

Lemma filter_none {A} (f : A -> bool) (l : list A) :
  existsb f l = false -> filter f l = [].
Proof.
  induction l as [ | a l IH ]; [ reflexivity | ]. simpl.
  intro H. apply orb_false_iff in H. destruct H as [Ha Hl].
  rewrite Ha. now apply IH.
Qed.

(** An exception of the integrand at an endpoint comes out of the call; by
    then the generator has been seeded anew and nothing has been drawn. *)
Theorem endpoint_exception_after_seeding (function : callable) lo hi N S g e :
  (0 < N)%Z -> (hi <=? lo) = false ->
  function lo = Raise e
  \/ (exists a, function lo = Ok a) /\ function hi = Raise e ->
  estimate_integral_monte_carlo function lo hi N S g
  = (Raise e, Random.seed_state S).
Proof.
  intros HN Hb H. unfold estimate_integral_monte_carlo.
  assert (HN' : (N <=? 0)%Z = false) by (apply Z.leb_gt; lia).
  rewrite HN', Hb. unfold bind, Random.seed, call.
  destruct H as [H | [[a Ha] H]].
  - now rewrite H.
  - now rewrite Ha, H.
Qed.

Lemma endpoint_exception_after_seeding_witness :
  estimate_integral_monte_carlo (integrand_function rounded_pow) 0 1e200 3 42
    some_generator
  = (Raise OverflowError, Random.seed_state 42).
Proof.
  apply (endpoint_exception_after_seeding (integrand_function rounded_pow)
           0 1e200 3 42
           some_generator OverflowError);
    [ lia | reflexivity | right; split; [ exists 0 | ]; vm_compute; reflexivity ].
Defined.

(** An exception of the integrand at the [i]-th point (the first where it
    raises) comes out of the call, and the shared generator keeps the
    [2 * (i + 1)] draws made until then. *)
Theorem loop_exception_keeps_draws (function : callable) lo hi N S g a b e i :
  (0 < N)%Z -> (hi <=? lo) = false ->
  function lo = Ok a -> function hi = Ok b ->
  (i < Z.to_nat N)%nat ->
  (forall j, (j < i)%nat ->
     exists v,
       function (lo + (hi - lo) * draw (Random.seed_state S) (2 * j)) = Ok v) ->
  function (lo + (hi - lo) * draw (Random.seed_state S) (2 * i)) = Raise e ->
  estimate_integral_monte_carlo function lo hi N S g
  = (Raise e, Nat.iter (2 * (i + 1)) next_state (Random.seed_state S)).
Proof.
  intros HN Hb Ha Hb' Hi Hok Hfail. unfold estimate_integral_monte_carlo.
  assert (HN' : (N <=? 0)%Z = false) by (apply Z.leb_gt; lia).
  rewrite HN', Hb.
  unfold bind at 1. unfold Random.seed.
  unfold bind at 1. unfold call at 1. rewrite Ha.
  unfold bind at 1. unfold call at 1. rewrite Hb'.
  apply bind_raise.
  apply sampling_loop_first_failure; assumption.
Qed.

Lemma loop_exception_keeps_draws_witness :
  estimate_integral_monte_carlo endpoints_only 0 2 3 42 some_generator
  = (Raise (OtherError "interior"),
     Nat.iter (2 * (0 + 1)) next_state (Random.seed_state 42)).
Proof.
  apply (loop_exception_keeps_draws endpoints_only 0 2 3 42 some_generator 1 1
           (OtherError "interior") 0);
    [ lia | reflexivity | reflexivity | reflexivity | vm_compute; lia
    | intros j Hj; lia | vm_compute; reflexivity ].
Defined.

(** The call reads the integrand at the two endpoints and at the abscissas
    drawn, nowhere else: two callables that agree there give the same outcome
    and leave the same generator. *)
Theorem estimate_reads_integrand_at_samples (f f' : callable) lo hi N S g :
  f lo = f' lo -> f hi = f' hi ->
  (forall i, (i < Z.to_nat N)%nat ->
     f (lo + (hi - lo) * draw (Random.seed_state S) (2 * i))
     = f' (lo + (hi - lo) * draw (Random.seed_state S) (2 * i))) ->
  estimate_integral_monte_carlo f lo hi N S g
  = estimate_integral_monte_carlo f' lo hi N S g.
Proof.
  intros Hlo Hhi Hs. unfold estimate_integral_monte_carlo.
  destruct (N <=? 0)%Z; [ reflexivity | ].
  destruct (hi <=? lo); [ reflexivity | ].
  unfold bind, Random.seed, call. rewrite Hlo, Hhi.
  destruct (f' lo) as [fl | e]; [ | reflexivity ].
  destruct (f' hi) as [fu | e]; [ | reflexivity ].
  rewrite (sampling_loop_agree f f') by assumption. reflexivity.
Qed.

Lemma estimate_reads_integrand_at_samples_witness :
  estimate_integral_monte_carlo square_but_one 0 2 2 42 some_generator
  = estimate_integral_monte_carlo (total (fun x => x * x)) 0 2 2 42
      some_generator.
Proof.
  apply (estimate_reads_integrand_at_samples square_but_one
           (total (fun x => x * x)) 0 2 2 42 some_generator);
    [ reflexivity | reflexivity
    | intros i Hi; destruct i as [ | [ | i ] ];
      [ vm_compute; reflexivity | vm_compute; reflexivity
      | exfalso; vm_compute in Hi; lia ] ].
Defined.

(** [random.seed] takes the absolute value of an int seed: a seed and its
    negative give the same run. *)
Theorem negative_seed_same_run (function : callable) lo hi N S g :
  estimate_integral_monte_carlo function lo hi N (- S) g
  = estimate_integral_monte_carlo function lo hi N S g.
Proof.
  unfold estimate_integral_monte_carlo.
  destruct (N <=? 0)%Z; [ reflexivity | ].
  destruct (hi <=? lo); [ reflexivity | ].
  unfold bind at 1 3. unfold Random.seed, Random.seed_state, key_of_int.
  now rewrite Z.abs_opp.
Qed.

(** The height comes from the endpoints only: when the integrand is zero at
    both endpoints (and the width is finite) the estimate is zero, whatever
    the integrand is in between. *)
Theorem zero_at_endpoints_estimates_zero f lo hi N S g :
  (0 < N)%Z -> (lo <? hi) = true ->
  (Py.max (f lo) (f hi) =? 0) = true ->
  (abs (hi - lo) <? infinity) = true ->
  exists v,
    fst (estimate_integral_monte_carlo (total f) lo hi N S g) = Ok v
    /\ (v =? 0) = true.
Proof.
  intros HN Hlt Hh Hw.
  destruct (estimate_valid f lo hi N S g HN (ltb_not_ge _ _ Hlt))
    as (ratio & _ & H0 & H1 & Hrun).
  eexists. rewrite Hrun. split; [ reflexivity | ].
  pose proof (mul_zero_r _ _ Hw Hh) as Ha.
  rewrite eqb_spec, Prim2SF_zero in Ha.
  destruct (SFeqb_zero_inv _ Ha) as [s Hs].
  apply mul_zero_r; [ now apply unit_is_finite | ].
  rewrite eqb_spec, Hs. reflexivity.
Qed.

Lemma zero_at_endpoints_estimates_zero_witness :
  exists v,
    fst (estimate_integral_monte_carlo (total (fun x => x * (2 - x))) 0 2 3 42
           some_generator) = Ok v
    /\ (v =? 0) = true.
Proof.
  apply (zero_at_endpoints_estimates_zero (fun x => x * (2 - x)) 0 2 3 42
           some_generator);
    [ lia | reflexivity | reflexivity | reflexivity ].
Defined.

(** When every point drawn is under the curve the quotient is exactly [1.0]
    and the estimate is the area of the rectangle, bit for bit. *)
Theorem all_points_under_gives_area f lo hi N S g :
  (0 < N)%Z -> (lo <? hi) = true ->
  let height := Py.max (f lo) (f hi) in
  forallb (under_curve f)
    (samples lo hi height (Random.seed_state S) (Z.to_nat N)) = true ->
  fst (estimate_integral_monte_carlo (total f) lo hi N S g)
  = Ok ((hi - lo) * height).
Proof.
  intros HN Hlt height Hall.
  destruct (estimate_valid f lo hi N S g HN (ltb_not_ge _ _ Hlt))
    as (ratio & Hr & _ & _ & Hrun).
  fold height in Hr, Hrun. unfold count_under in Hr.
  rewrite (filter_all _ _ Hall), samples_length, Z2Nat.id in Hr by lia.
  rewrite int_truediv_same in Hr by assumption. injection Hr as <-.
  rewrite Hrun. simpl fst. now rewrite mul_one_l.
Qed.

Lemma all_points_under_gives_area_witness :
  fst (estimate_integral_monte_carlo (total (fun _ => 4)) 0 2 3 42
         some_generator)
  = Ok ((2 - 0) * Py.max 4 4).
Proof.
  apply (all_points_under_gives_area (fun _ => 4) 0 2 3 42 some_generator);
    [ lia | reflexivity | vm_compute; reflexivity ].
Defined.

(** When no point drawn is under the curve the quotient is [0.0], and the
    estimate is zero for a finite area. *)
Theorem no_point_under_gives_zero f lo hi N S g :
  (0 < N)%Z -> (lo <? hi) = true ->
  let height := Py.max (f lo) (f hi) in
  existsb (under_curve f)
    (samples lo hi height (Random.seed_state S) (Z.to_nat N)) = false ->
  (abs ((hi - lo) * height) <? infinity) = true ->
  exists v,
    fst (estimate_integral_monte_carlo (total f) lo hi N S g) = Ok v
    /\ v = 0 * ((hi - lo) * height) /\ (v =? 0) = true.
Proof.
  intros HN Hlt height Hnone Hfin.
  destruct (estimate_valid f lo hi N S g HN (ltb_not_ge _ _ Hlt))
    as (ratio & Hr & _ & _ & Hrun).
  fold height in Hr, Hrun. unfold count_under in Hr.
  rewrite (filter_none _ _ Hnone) in Hr.
  change (Z.of_nat (List.length (@nil (float * float)))) with 0%Z in Hr.
  rewrite int_truediv_zero in Hr by assumption. injection Hr as <-.
  eexists. rewrite Hrun. split; [ reflexivity | split; [ reflexivity | ] ].
  apply mul_zero_l; [ reflexivity | assumption ].
Qed.

Lemma no_point_under_gives_zero_witness :
  exists v,
    fst (estimate_integral_monte_carlo
           (total (fun x => if (x =? 0) || (x =? 2) then 4 else -1)) 0 2 3 42
           some_generator) = Ok v
    /\ v = 0 * ((2 - 0) * Py.max 4 4) /\ (v =? 0) = true.
Proof.
  apply (no_point_under_gives_zero
           (fun x => if (x =? 0) || (x =? 2) then 4 else -1) 0 2 3 42
           some_generator);
    [ lia | reflexivity | vm_compute; reflexivity | reflexivity ].
Defined.

(** With SciPy, [main] prints the three quadrature lines after the first
    four, from the pair that [quad] returned; an exception of [quad] comes
    out of [main]. *)
Theorem main_with_quadrature pow (quad : quad_function) g :
  accurate_on_documented_run pow = true ->
  fst (main pow (Some quad) g)
  = match quad (integrand_function pow) 0 2 with
    | Ok (quad_result, quad_error_estimate) =>
        Ok [ Header;
             MonteCarloLine 200000 2.66688;
             AnalyticLine (8 / 3);
             DifferenceLine (abs (2.66688 - 8 / 3));
             QuadHeader;
             QuadLine quad_result quad_error_estimate;
             QuadDifferenceLine (abs (2.66688 - quad_result)) ]
    | Raise e => Raise e
    end.
Proof.
  intro Hacc. destruct (documented_run pow g Hacc) as [Hrun Han].
  unfold main. cbv zeta. unfold bind at 1.
  destruct (estimate_integral_monte_carlo (integrand_function pow)
              0 2 200000 42 g) as [r g1].
  simpl fst in Hrun. subst r.
  unfold bind at 1. unfold call at 1. rewrite Han.
  unfold bind, call, ret, try_quad_integration, rbind.
  destruct (quad (integrand_function pow) 0 2) as [[v e] | e]; reflexivity.
Qed.

Lemma main_with_quadrature_witness :
  fst (main rounded_pow (Some (fun _ _ _ => Ok (2.666666666666667, 2.96e-14)))
         some_generator)
  = match (fun _ _ _ => Ok (2.666666666666667, 2.96e-14))
            (integrand_function rounded_pow) 0 2 with
    | Ok (quad_result, quad_error_estimate) =>
        Ok [ Header;
             MonteCarloLine 200000 2.66688;
             AnalyticLine (8 / 3);
             DifferenceLine (abs (2.66688 - 8 / 3));
             QuadHeader;
             QuadLine quad_result quad_error_estimate;
             QuadDifferenceLine (abs (2.66688 - quad_result)) ]
    | Raise e => Raise e
    end.
Proof.
  apply (main_with_quadrature rounded_pow
           (fun _ _ _ => Ok (2.666666666666667, 2.96e-14)) some_generator).
  exact rounded_pow_is_accurate.
Defined.

(** With a non-negative height, as soon as the area that the code computes
    is finite the estimate lies between zero and the area. *)
Theorem estimate_within_rectangle_of_finite_area f lo hi N S g :
  (0 < N)%Z -> (lo <? hi) = true ->
  let height := Py.max (f lo) (f hi) in
  (0 <=? height) = true ->
  ((hi - lo) * height <? infinity) = true ->
  exists v,
    fst (estimate_integral_monte_carlo (total f) lo hi N S g) = Ok v
    /\ (0 <=? v) = true /\ (v <=? (hi - lo) * height) = true.
Proof.
  intros HN Hlt height Hh Hfin.
  destruct (estimate_valid f lo hi N S g HN (ltb_not_ge _ _ Hlt))
    as (ratio & _ & H0 & H1 & Hrun).
  exists (ratio * ((hi - lo) * height)). rewrite Hrun.
  split; [ reflexivity | ].
  apply mul_unit_bound; try assumption.
  apply mul_nonneg; try assumption. now apply width_nonneg.
Qed.

Lemma estimate_within_rectangle_of_finite_area_witness :
  exists v,
    fst (estimate_integral_monte_carlo (total (fun x => x * x)) 0 2 3 42
           some_generator) = Ok v
    /\ (0 <=? v) = true /\ (v <=? (2 - 0) * Py.max (0 * 0) (2 * 2)) = true.
Proof.
  apply (estimate_within_rectangle_of_finite_area (fun x => x * x) 0 2 3 42
           some_generator);
    [ lia | reflexivity | reflexivity | reflexivity ].
Defined.

(** A NaN at the lower endpoint becomes the height ([max] keeps its first
    argument), and the call returns a NaN without raising. *)
Theorem nan_at_lower_endpoint f lo hi N S g :
  (0 < N)%Z -> (lo <? hi) = true -> is_nan (f lo) = true ->
  exists v,
    fst (estimate_integral_monte_carlo (total f) lo hi N S g) = Ok v
    /\ is_nan v = true.
Proof.
  intros HN Hlt Hlo.
  destruct (estimate_valid f lo hi N S g HN (ltb_not_ge _ _ Hlt))
    as (ratio & _ & _ & _ & Hrun).
  eexists. rewrite Hrun. split; [ reflexivity | ].
  rewrite (max_nan_l _ _ Hlo). now do 2 apply mul_nan_r.
Qed.

Lemma nan_at_lower_endpoint_witness :
  exists v,
    fst (estimate_integral_monte_carlo
           (total (fun x => if x =? 0 then nan else x)) 0 2 3 42
           some_generator) = Ok v
    /\ is_nan v = true.
Proof.
  apply (nan_at_lower_endpoint (fun x => if x =? 0 then nan else x) 0 2 3 42
           some_generator);
    [ lia | reflexivity | reflexivity ].
Defined.

(** A NaN at the upper endpoint is dropped by [max]: the height is the value
    at the lower endpoint, and the estimate is the quotient times
    [(upper - lower) * f(lower)]. *)
Theorem nan_at_upper_endpoint_is_dropped f lo hi N S g :
  (0 < N)%Z -> (lo <? hi) = true -> is_nan (f hi) = true ->
  exists ratio,
    int_truediv
      (count_under f
         (samples lo hi (f lo) (Random.seed_state S) (Z.to_nat N))) N
    = Ok ratio
    /\ fst (estimate_integral_monte_carlo (total f) lo hi N S g)
       = Ok (ratio * ((hi - lo) * f lo)).
Proof.
  intros HN Hlt Hhi.
  destruct (estimate_valid f lo hi N S g HN (ltb_not_ge _ _ Hlt))
    as (ratio & Hr & _ & _ & Hrun).
  rewrite (max_nan_r _ _ Hhi) in Hr, Hrun.
  exists ratio. split; [ exact Hr | now rewrite Hrun ].
Qed.

Lemma nan_at_upper_endpoint_is_dropped_witness :
  exists ratio,
    int_truediv
      (count_under (fun x => if x =? 2 then nan else x + 1)
         (samples 0 2 ((fun x => if x =? 2 then nan else x + 1) 0)
            (Random.seed_state 42) (Z.to_nat 3))) 3
    = Ok ratio
    /\ fst (estimate_integral_monte_carlo
              (total (fun x => if x =? 2 then nan else x + 1)) 0 2 3 42
              some_generator)
       = Ok (ratio * ((2 - 0) * (fun x => if x =? 2 then nan else x + 1) 0)).
Proof.
  apply (nan_at_upper_endpoint_is_dropped
           (fun x => if x =? 2 then nan else x + 1) 0 2 3 42 some_generator);
    [ lia | reflexivity | reflexivity ].
Defined.

(** The code does not ask for a non-negative integrand: when the area that it
    computes is finite and not positive (a negative height), the estimate
    lies between the area and zero. *)
Theorem estimate_within_negative_rectangle f lo hi N S g :
  (0 < N)%Z -> (lo <? hi) = true ->
  let rectangle_area := (hi - lo) * Py.max (f lo) (f hi) in
  (rectangle_area <=? 0) = true -> (neg_infinity <? rectangle_area) = true ->
  exists v,
    fst (estimate_integral_monte_carlo (total f) lo hi N S g) = Ok v
    /\ (rectangle_area <=? v) = true /\ (v <=? 0) = true.
Proof.
  intros HN Hlt area Ha0 Hafin.
  destruct (estimate_valid f lo hi N S g HN (ltb_not_ge _ _ Hlt))
    as (ratio & _ & H0 & H1 & Hrun).
  exists (ratio * area). rewrite Hrun. split; [ reflexivity | ].
  apply mul_unit_bound_neg; assumption.
Qed.

Lemma estimate_within_negative_rectangle_witness :
  exists v,
    fst (estimate_integral_monte_carlo (total (fun x => - (x * x) - 1)) 0 2 3 42
           some_generator) = Ok v
    /\ ((2 - 0) * Py.max (- (0 * 0) - 1) (- (2 * 2) - 1) <=? v) = true
    /\ (v <=? 0) = true.
Proof.
  apply (estimate_within_negative_rectangle (fun x => - (x * x) - 1) 0 2 3 42
           some_generator);
    [ lia | reflexivity | reflexivity | reflexivity ].
Defined.

(* ================================================================== *)
(** ** The constraints of [solve_production_plan]                      *)
(* ================================================================== *)

Module PlanFacts.

Local Open Scope Z_scope.

Lemma within_limits_spec r L F :
  within_limits r L F = true
  <-> 0 <= L /\ 0 <= F /\ 2 * L + F <= water_units r
      /\ L <= sugar_units r /\ L <= lemon_juice_units r
      /\ 2 * F <= fruit_puree_units r.
Proof.
  unfold within_limits. rewrite !andb_true_iff, !Z.leb_le. lia.
Qed.

(** The model of [solve_production_plan] has a plan exactly when no resource
    is negative; then the juice-first plan is within the limits and no plan
    within the limits makes more units. *)
Theorem juice_first_plan_is_optimal (resources : AvailableResources) :
  let '(L, F) := juice_first_plan resources in
  ((exists l f, within_limits resources l f = true)
   <-> 0 <= water_units resources /\ 0 <= sugar_units resources
       /\ 0 <= lemon_juice_units resources
       /\ 0 <= fruit_puree_units resources)
  /\ ((exists l f, within_limits resources l f = true) ->
      within_limits resources L F = true)
  /\ (forall l f, within_limits resources l f = true ->
        total_units l f <= total_units L F).
Proof.
  destruct resources as [W S J P]. unfold juice_first_plan, total_units.
  cbn [water_units sugar_units lemon_juice_units fruit_puree_units].
  split; [ split | split ].
  - intros (l & f & H). apply within_limits_spec in H.
    cbn [water_units sugar_units lemon_juice_units fruit_puree_units] in H. lia.
  - intro H. exists 0, 0. apply within_limits_spec.
    cbn [water_units sugar_units lemon_juice_units fruit_puree_units]. lia.
  - intros (l & f & H). apply within_limits_spec in H.
    apply within_limits_spec.
    cbn [water_units sugar_units lemon_juice_units fruit_puree_units] in *.
    pose proof (Z.div_mod P 2 ltac:(lia)).
    pose proof (Z.mod_pos_bound P 2 ltac:(lia)).
    set (F := Z.min (P / 2) W) in *.
    pose proof (Z.div_mod (W - F) 2 ltac:(lia)).
    pose proof (Z.mod_pos_bound (W - F) 2 ltac:(lia)).
    assert (0 <= F <= W /\ 2 * F <= P) by (unfold F; lia).
    assert (0 <= (W - F) / 2) by (apply Z.div_pos; lia).
    lia.
  - intros l f H. apply within_limits_spec in H.
    cbn [water_units sugar_units lemon_juice_units fruit_puree_units] in H.
    pose proof (Z.div_mod P 2 ltac:(lia)).
    pose proof (Z.mod_pos_bound P 2 ltac:(lia)).
    set (F := Z.min (P / 2) W) in *.
    pose proof (Z.div_mod (W - F) 2 ltac:(lia)).
    pose proof (Z.mod_pos_bound (W - F) 2 ltac:(lia)).
    assert (f <= F) by (unfold F; lia).
    lia.
Qed.

End PlanFacts.
